(** * use_model.py: chat prompt formatting, response extraction and the
      interactive session loop

    A shallow embedding of [src/use_model.py].  Python strings are lists of
    Unicode code points.  The external collaborators (console, model hub,
    tokenizer and model) are oracles: what they answer is an argument of
    the embedded functions, so the statements below hold for every
    behaviour of theirs, and every interaction with them is recorded in a
    trace.  Exceptions are values: a computation returns or raises, and
    [try]/[except] is a combinator. *)

From Stdlib Require Import Ascii String.
From Stdlib Require Import List NArith Bool Arith Lia.
Import ListNotations.

(** ** Python [str] *)

Module PyStr.

(** A character is a Unicode code point. *)
Definition char : Type := N.
Definition str : Type := list char.

(** An ASCII literal of the source as a [str]. *)
Definition lit (s : string) : str := map N_of_ascii (list_ascii_of_string s).

(** The escape [\n] of the source's literals. *)
Definition nl : str := [10%N].

(** [a == b] *)
Fixpoint eqb (a b : str) : bool :=
  match a, b with
  | [], [] => true
  | x :: a', y :: b' => N.eqb x y && eqb a' b'
  | _, _ => false
  end.

(** [s.startswith(p)] *)
Fixpoint startswith (p s : str) : bool :=
  match p, s with
  | [], _ => true
  | x :: p', y :: s' => N.eqb x y && startswith p' s'
  | _ :: _, [] => false
  end.

(** [s.find(sub)]: the index of the first occurrence, [None] for Python's -1. *)
Fixpoint find (sub s : str) : option nat :=
  if startswith sub s then Some 0
  else match s with
       | [] => None
       | _ :: s' => option_map S (find sub s')
       end.

(** [sub in s] *)
Definition contains (sub s : str) : bool :=
  match find sub s with Some _ => true | None => false end.

(** [s.split(sep)] for a non-empty [sep]: cut at the successive
    non-overlapping occurrences of [sep], scanning from the left.  Each cut
    consumes at least one character, so [length s] rounds are enough
    ([split_rounds_enough] below). *)
Fixpoint split_rounds (rounds : nat) (sep s : str) : list str :=
  match rounds with
  | 0 => [s]
  | S r =>
      match find sep s with
      | None => [s]
      | Some i => firstn i s :: split_rounds r sep (skipn (i + length sep) s)
      end
  end.

Definition split (sep s : str) : list str := split_rounds (length s) sep s.

(** [pieces[0]] and [pieces[-1]] of a list that [split] returned. *)
Definition first_piece (pieces : list str) : str := hd [] pieces.
Definition last_piece (pieces : list str) : str := last pieces [].

(** The code points [str.isspace] accepts, which are the ones [str.strip]
    removes: the table of CPython's [_PyUnicode_IsWhitespace]. *)
Definition isspace (c : char) : bool :=
  ((9 <=? c) && (c <=? 13) || (28 <=? c) && (c <=? 32)
   || (c =? 133) || (c =? 160) || (c =? 5760)
   || (8192 <=? c) && (c <=? 8202)
   || (c =? 8232) || (c =? 8233) || (c =? 8239) || (c =? 8287)
   || (c =? 12288))%N.

Fixpoint lstrip (s : str) : str :=
  match s with
  | c :: s' => if isspace c then lstrip s' else s
  | [] => []
  end.

Definition rstrip (s : str) : str := rev (lstrip (rev s)).

(** [s.strip()] *)
Definition strip (s : str) : str := rstrip (lstrip s).

(** [str.lower] on one code point.  The Basic Latin capitals, and the two
    code points outside Basic Latin whose lower-case form contains a Basic
    Latin letter (U+0130, which becomes [i] followed by U+0307, and the
    Kelvin sign U+212A, which becomes [k]) are mapped as Python maps them.
    Every other code point outside Basic Latin has a lower-case form outside
    Basic Latin as well; it is left as it is, which gives the same answer as
    Python whenever the lowered string is compared with an ASCII word, the
    only use the program makes of [lower]. *)
Definition lower_char (c : char) : str :=
  if ((65 <=? c) && (c <=? 90))%N then [(c + 32)%N]
  else if (c =? 304)%N then [105%N; 775%N]
  else if (c =? 8490)%N then [107%N]
  else [c].

(** [s.lower()] *)
Definition lower (s : str) : str := flat_map lower_char s.

(** Truth value of a string: [if s:] *)
Definition truthy (s : str) : bool :=
  match s with [] => false | _ :: _ => true end.

End PyStr.

Import PyStr.

(** ** Effects: a trace of external interactions, and exceptions *)

(** [torch_dtype] of the model load. *)
Inductive dtype : Type := float16 | float32.

(** What the program does to the outside world, in order. *)
Inductive io : Type :=
| Print (text : str)                            (* print(text) *)
| Input (prompt : str)                          (* input(prompt) *)
| TokenizerFromPretrained (model_name : str)    (* AutoTokenizer.from_pretrained *)
| ModelFromPretrained (model_name : str) (torch_dtype : dtype) (device_map : str)
| Generate (formatted_prompt : str) (max_length : N).
    (* tokenizer(formatted_prompt), model.generate(...), tokenizer.decode;
       the sampling temperature, a float, is not recorded *)

Definition trace : Type := list io.

(** The two kinds of exception the program distinguishes: [except Exception]
    catches the first and lets the second through. *)
Inductive exn : Type :=
| Exception (msg : str)
| KeyboardInterrupt.

Inductive result (A : Type) : Type :=
| Ok (a : A)
| Raise (e : exn).
Arguments Ok {A} a.
Arguments Raise {A} e.

(** A computation extends the trace and returns or raises. *)
Definition M (A : Type) : Type := trace -> result A * trace.

Definition ret {A} (a : A) : M A := fun t => (Ok a, t).

Definition bind {A B} (c : M A) (k : A -> M B) : M B :=
  fun t =>
    match c t with
    | (Ok a, t') => k a t'
    | (Raise e, t') => (Raise e, t')
    end.

Definition raise {A} (e : exn) : M A := fun t => (Raise e, t).

(** One interaction: the event is recorded, then the outside world's answer
    is returned or raised. *)
Definition interact {A} (ev : io) (answer : result A) : M A :=
  fun t => (answer, t ++ [ev]).

Definition print (text : str) : M unit := interact (Print text) (Ok tt).

(** [try: body  except ...: handler]; a handler re-raises what its [except]
    clauses do not catch. *)
Definition try_except {A} (body : M A) (handler : exn -> M A) : M A :=
  fun t =>
    match body t with
    | (Ok a, t') => (Ok a, t')
    | (Raise e, t') => handler e t'
    end.

Declare Scope py_scope.
Delimit Scope py_scope with py.
Notation "x <- c ;; k" := (bind c (fun x => k))
  (at level 61, c at next level, right associativity) : py_scope.
Notation "c ;; k" := (bind c (fun _ => k))
  (at level 61, right associativity) : py_scope.
Local Open Scope py_scope.

(** ** The data model *)

Inductive Role : Type := user | assistant.

(** One entry of [conversation_history]: [{'role': ..., 'content': ...}]. *)
Record Turn : Type := { role : Role; content : str }.

(** The ChatML markers the source spells out in its literals. *)
Definition im_start_user : str := lit "<|im_start|>user" ++ nl.
Definition im_start_assistant : str := lit "<|im_start|>assistant" ++ nl.
Definition im_end : str := lit "<|im_end|>".

(** The behaviour of the loaded model and tokenizer at one call: the decoded
    text for the prompt they are given, or the exception they raise. *)
Definition Provider : Type := str -> result str.

(** ** generate_response *)

(** Lines 75-81: extract just the assistant's response. *)
Definition extract_response (response : str) : str :=
  let response :=
    if contains im_start_assistant response
    then last_piece (split im_start_assistant response)
    else response in
  let response :=
    if contains im_end response
    then first_piece (split (lit "<|im_end|") response)
    else response in
  strip response.

(** Line 52: format the prompt in ChatML. *)
Definition formatted_prompt (prompt : str) : str :=
  im_start_user ++ prompt ++ im_end ++ nl ++ im_start_assistant.

Definition generate_response (provider : Provider) (prompt : str)
    (max_length : N) : M (option str) :=
  try_except
    (response <- interact (Generate (formatted_prompt prompt) max_length)
                          (provider (formatted_prompt prompt)) ;;
     ret (Some (extract_response response)))
    (fun e =>
       match e with
       | Exception msg =>
           print ([10060%N] ++ lit " Error generating response: " ++ msg) ;;
           ret None
       | KeyboardInterrupt => raise KeyboardInterrupt
       end).

(** [if response:] on the value [generate_response] returned. *)
Definition usable (response : option str) : option str :=
  match response with
  | Some r => if truthy r then Some r else None
  | None => None
  end.

(** ** interactive_chat *)

(** Lines 111-119: build the full conversation context. *)
Fixpoint render_history (conversation_history : list Turn) : str :=
  match conversation_history with
  | [] => []
  | msg :: rest =>
      match role msg with
      | user => im_start_user ++ content msg ++ im_end ++ nl
      | assistant => im_start_assistant ++ content msg ++ im_end ++ nl
      end ++ render_history rest
  end.

Definition full_prompt (conversation_history : list Turn) (user_input : str)
    : str :=
  render_history conversation_history
  ++ im_start_user ++ user_input ++ im_end ++ nl ++ im_start_assistant.

(** How one pass through the body of [while True] ends. *)
Inductive control : Type :=
| Continue    (* back to input(): the loop awaits the next line *)
| Break.      (* the loop is left *)

(** One pass through the body of [while True] (lines 98-139).  [stdin] is
    what [input] does this time, [provider] what the model does if it is
    called.  The pass returns how it ends and the conversation history it
    leaves.  Nothing that can raise comes after an assignment to
    [conversation_history], so the handlers see the history the pass
    started with. *)
Definition loop_body (stdin : result str) (provider : Provider)
    (conversation_history : list Turn) : M (control * list Turn) :=
  try_except
    (line <- interact (Input (nl ++ [128100%N] ++ lit " You: ")) stdin ;;
     let user_input := strip line in
     if eqb (lower user_input) (lit "quit") then
       print ([128075%N] ++ lit " Goodbye!") ;;
       ret (Break, conversation_history)
     else if eqb (lower user_input) (lit "clear") then
       print ([129529%N] ++ lit " Conversation cleared!") ;;
       ret (Continue, [])
     else if negb (truthy user_input) then
       ret (Continue, conversation_history)
     else
       print (nl ++ [129302%N] ++ lit " Assistant is thinking...") ;;
       response <- generate_response provider
                     (full_prompt conversation_history user_input) 200 ;;
       match usable response with
       | Some response =>
           print ([129302%N] ++ lit " Assistant: " ++ response) ;;
           ret (Continue,
                conversation_history
                ++ [ {| role := user; content := user_input |} ]
                ++ [ {| role := assistant; content := response |} ])
       | None =>
           print ([10060%N] ++ lit " Failed to generate response") ;;
           ret (Continue, conversation_history)
       end)
    (fun e =>
       match e with
       | KeyboardInterrupt =>
           print (nl ++ nl ++ [128075%N] ++ lit " Goodbye!") ;;
           ret (Break, conversation_history)
       | Exception msg =>
           print ([10060%N] ++ lit " Error: " ++ msg) ;;
           ret (Continue, conversation_history)
       end).

(** The states of the session controller between two passes. *)
Inductive status : Type := AwaitingInput | Terminated.

(** The [while True] loop against a finite script of the console and the
    model: one entry per pass.  When the script is used up the loop is
    blocked in [input]. *)
Fixpoint chat_loop (script : list (result str * Provider))
    (conversation_history : list Turn) : M (status * list Turn) :=
  match script with
  | [] => ret (AwaitingInput, conversation_history)
  | (stdin, provider) :: script' =>
      r <- loop_body stdin provider conversation_history ;;
      match r with
      | (Break, h) => ret (Terminated, h)
      | (Continue, h) => chat_loop script' h
      end
  end.

Definition interactive_chat (script : list (result str * Provider))
    : M (status * list Turn) :=
  print (nl ++ [129302%N] ++ lit " Interactive Chat Mode") ;;
  print (lit "Type 'quit' to exit, 'clear' to start a new conversation") ;;
  print (repeat 45%N 50) ;;
  chat_loop script [].

(** ** load_model and main *)

(** The handles [from_pretrained] returns are opaque to the program. *)
Inductive Tokenizer : Type := tokenizer_handle (model_name : str).
Inductive Model : Type :=
  model_handle (model_name : str) (torch_dtype : dtype) (device_map : str).

(** The parsed command line ([argparse.Namespace]). *)
Record Args : Type := {
  arg_model : str;              (* --model *)
  arg_device : str;             (* --device *)
  arg_prompt : option str;      (* --prompt, None when absent *)
  arg_interactive : bool        (* --interactive *)
}.

(** The outside world of one run of the program. *)
Record Env : Type := {
  script_path : str;                                   (* __file__ *)
  cuda_is_available : bool;                            (* torch.cuda.is_available() *)
  hub_tokenizer : str -> result Tokenizer;
  hub_model : str -> dtype -> str -> result Model;
  single_shot : Provider;      (* the model at the call of single-prompt mode *)
  console : list (result str * Provider)               (* the interactive session *)
}.

(** Lines 18-19: auto-detect the device if not specified. *)
Definition resolve_device (env : Env) (device : str) : str :=
  if eqb device (lit "auto")
  then (if cuda_is_available env then lit "cuda" else lit "cpu")
  else device.

(** Line 30: the [torch_dtype] argument of the model load. *)
Definition dtype_for (device : str) : dtype :=
  if eqb device (lit "cuda") then float16 else float32.

Definition load_model (env : Env) (model_name device : str)
    : M (option Model * option Tokenizer) :=
  print (lit "Loading model: " ++ model_name) ;;
  print (lit "This may take a few minutes on first run...") ;;
  let device := resolve_device env device in
  print (lit "Using device: " ++ device) ;;
  try_except
    (tokenizer <- interact (TokenizerFromPretrained model_name)
                           (hub_tokenizer env model_name) ;;
     model <- interact (ModelFromPretrained model_name (dtype_for device) device)
                       (hub_model env model_name (dtype_for device) device) ;;
     print ([9989%N] ++ lit " Model loaded successfully!") ;;
     ret (Some model, Some tokenizer))
    (fun e =>
       match e with
       | Exception msg =>
           print ([10060%N] ++ lit " Error loading model: " ++ msg) ;;
           print (nl ++ [128161%N] ++ lit " Tips:") ;;
           print (lit "1. Make sure you have enough RAM (at least 16GB recommended)") ;;
           print (lit "2. Consider using a smaller model variant if you have memory issues") ;;
           print (lit "3. Check your internet connection for the first download") ;;
           ret (None, None)
       | KeyboardInterrupt => raise KeyboardInterrupt
       end).

(** [if args.prompt:] *)
Definition given (prompt : option str) : option str :=
  match prompt with
  | Some p => if truthy p then Some p else None
  | None => None
  end.

Definition main (args : Args) (env : Env) : M unit :=
  loaded <- load_model env (arg_model args) (arg_device args) ;;
  match loaded with
  | (Some model, Some tokenizer) =>
      match given (arg_prompt args) with
      | Some prompt =>
          print (nl ++ [128221%N] ++ lit " Prompt: " ++ prompt) ;;
          response <- generate_response (single_shot env) prompt 200 ;;
          match usable response with
          | Some response =>
              print (nl ++ [129302%N] ++ lit " Response: " ++ response)
          | None => print ([10060%N] ++ lit " Failed to generate response")
          end
      | None =>
          if arg_interactive args then
            interactive_chat (console env) ;; ret tt
          else
            print (nl ++ [128214%N] ++ lit " Usage Examples:") ;;
            print (lit "1. Single prompt:") ;;
            print (lit "   python " ++ script_path env
                   ++ lit " --prompt 'What is artificial intelligence?'") ;;
            print (nl ++ lit "2. Interactive chat:") ;;
            print (lit "   python " ++ script_path env ++ lit " --interactive") ;;
            print (nl ++ lit "3. Use different model:") ;;
            print (lit "   python " ++ script_path env
                   ++ lit " --model 'other/model/path' --interactive")
      end
  | _ => ret tt
  end.

(** * Vocabulary of the statements *)

(** ** Occurrences of a marker in a text *)

(** [sub] occurs in [s], with [pre] before the occurrence and [post] after. *)
Definition occurs_at (sub s pre post : str) : Prop := s = pre ++ sub ++ post.

Definition occurs (sub s : str) : Prop :=
  exists pre post, occurs_at sub s pre post.

(** An assistant-start marker of [out], between [pre] and [post], is open
    when no end marker follows it. *)
Definition open_marker_at (out pre post : str) : Prop :=
  occurs_at im_start_assistant out pre post /\ ~ occurs im_end post.

(** [a] and [b] agree as far as both go. *)
Fixpoint agree (a b : str) : bool :=
  match a, b with
  | x :: a', y :: b' => N.eqb x y && agree a' b'
  | _, _ => true
  end.

(** No proper non-empty suffix of [w] is a prefix of [w]: two occurrences of
    [w] in a text cannot overlap. *)
Definition unbordered (w : str) : bool :=
  forallb (fun k => negb (agree (skipn k w) w)) (seq 1 (length w - 1)).

(** How every rendered prompt ends: the end of the new user turn, then the
    assistant-start marker. *)
Definition prompt_end : str := im_end ++ nl ++ im_start_assistant.

(** A cut [l ++ post] of [prompt_end] after [n] characters cannot carry an
    open assistant-start marker that ends where [l] ends, unless [post] is
    empty: either an end marker occurs in [post], or [l] and the marker
    end differently. *)
Definition cut_excluded (n : nat) : bool :=
  let l := firstn n prompt_end in
  let post := skipn n prompt_end in
  negb (truthy post)
  || contains im_end post
  || negb (agree (rev im_start_assistant) (rev l)).

(** ** The extractor of the specification *)

(** The extractor as the specification words it: the text after the last
    assistant-start marker, cut at the end marker [<|im_end|>] when that
    text contains one, trimmed.  It differs from [extract_response] in the
    separator of the second cut only. *)
Definition extract_as_specified (response : str) : str :=
  let response :=
    if contains im_start_assistant response
    then last_piece (split im_start_assistant response)
    else response in
  let response :=
    if contains im_end response
    then first_piece (split im_end response)
    else response in
  strip response.

(** ** Inputs and observations of the session *)

(** A line that is neither a command nor empty once trimmed: the fourth
    branch of the [if]/[elif] chain, which goes on to call the provider. *)
Definition triggers_generation (line : str) : Prop :=
  lower (strip line) <> lit "quit"
  /\ lower (strip line) <> lit "clear"
  /\ strip line <> [].

(** The histories the loop holds each time it is about to call [input]: at
    startup and after every pass that does not leave the loop. *)
Fixpoint awaiting_histories (script : list (result str * Provider))
    (conversation_history : list Turn) (t : trace) : list (list Turn) :=
  conversation_history ::
  match script with
  | [] => []
  | (stdin, provider) :: script' =>
      match loop_body stdin provider conversation_history t with
      | (Ok (Continue, h), t') => awaiting_histories script' h t'
      | _ => []
      end
  end.

(** The prompts handed to the provider in a trace, in order. *)
Fixpoint submitted (t : trace) : list str :=
  match t with
  | [] => []
  | Generate p _ :: t' => p :: submitted t'
  | _ :: t' => submitted t'
  end.

(** The prompts of the [input] calls in a trace. *)
Fixpoint inputs (t : trace) : list str :=
  match t with
  | [] => []
  | Input p :: t' => p :: inputs t'
  | _ :: t' => inputs t'
  end.

(** The load attempts in a trace. *)
Fixpoint tokenizer_loads (t : trace) : list str :=
  match t with
  | [] => []
  | TokenizerFromPretrained name :: t' => name :: tokenizer_loads t'
  | _ :: t' => tokenizer_loads t'
  end.

Fixpoint model_loads (t : trace) : list str :=
  match t with
  | [] => []
  | ModelFromPretrained name _ _ :: t' => name :: model_loads t'
  | _ :: t' => model_loads t'
  end.

(** Loading fails: the tokenizer load raises, or it succeeds and the model
    load raises. *)
Definition load_fails (env : Env) (args : Args) (msg : str) : Prop :=
  let device := resolve_device env (arg_device args) in
  hub_tokenizer env (arg_model args) = Raise (Exception msg)
  \/ (exists tokenizer,
        hub_tokenizer env (arg_model args) = Ok tokenizer
        /\ hub_model env (arg_model args) (dtype_for device) device
           = Raise (Exception msg)).

(** ** Concrete inputs *)

Definition hi : str := lit "hi".
Definition hello : str := lit "hello".

(** A decoded text whose answer holds the end marker without its closing
    [>] before the complete end marker. *)
Definition unclosed_end_text : str :=
  im_start_assistant ++ lit "A<|im_end|B" ++ im_end.

(** A decoded text with an end marker and no assistant-start marker. *)
Definition end_marker_only : str := lit "a" ++ im_end ++ lit "b".

(** A provider that always fails. *)
Definition failing_provider : Provider :=
  fun _ => Raise (Exception (lit "CUDA out of memory")).

(** A provider whose decoded text echoes a marker and answers [hello]. *)
Definition hello_provider : Provider :=
  fun _ => Ok (im_start_assistant ++ hello ++ im_end).

(** A run in which the hub cannot be reached. *)
Definition offline_env : Env :=
  {| script_path := lit "use_model.py";
     cuda_is_available := false;
     hub_tokenizer := fun _ => Raise (Exception (lit "Connection error"));
     hub_model := fun name dt dev => Ok (model_handle name dt dev);
     single_shot := hello_provider;
     console := [(Ok hi, hello_provider)] |}.

Definition interactive_args : Args :=
  {| arg_model := lit "NousResearch/Nous-Hermes-2-Mistral-7B-DPO";
     arg_device := lit "auto";
     arg_prompt := None;
     arg_interactive := true |}.

(** ** Histories the loop can hold *)

(** A history made of exchanges: a user turn, then the assistant turn that
    answers it.  The user content is a trimmed, non-empty line; the
    assistant content is non-empty and free of the two markers. *)
Inductive exchanges : list Turn -> Prop :=
| exchanges_nil : exchanges []
| exchanges_cons (u a : str) (rest : list Turn) :
    u <> [] -> strip u = u ->
    a <> [] -> ~ occurs im_start_assistant a -> ~ occurs im_end a ->
    exchanges rest ->
    exchanges ({| role := user; content := u |}
               :: {| role := assistant; content := a |} :: rest).

(** What one failed read leaves in the trace: the prompt of [input] and the
    error line. *)
Definition failed_read (msg : str) : trace :=
  [ Input (nl ++ [128100%N] ++ lit " You: ");
    Print ([10060%N] ++ lit " Error: " ++ msg) ].

(** A run in which both loads succeed. *)
Definition online_env : Env :=
  {| script_path := lit "use_model.py";
     cuda_is_available := true;
     hub_tokenizer := fun name => Ok (tokenizer_handle name);
     hub_model := fun name dt dev => Ok (model_handle name dt dev);
     single_shot := hello_provider;
     console := [(Ok hi, hello_provider); (Ok (lit "quit"), hello_provider)] |}.

(** A run in which the user interrupts the tokenizer download. *)
Definition interrupted_env : Env :=
  {| script_path := lit "use_model.py";
     cuda_is_available := false;
     hub_tokenizer := fun _ => Raise KeyboardInterrupt;
     hub_model := fun name dt dev => Ok (model_handle name dt dev);
     single_shot := hello_provider;
     console := [] |}.

Definition default_model : str :=
  lit "NousResearch/Nous-Hermes-2-Mistral-7B-DPO".

Definition prompt_args : Args :=
  {| arg_model := default_model;
     arg_device := lit "auto";
     arg_prompt := Some hi;
     arg_interactive := true |}.

Definition bare_args : Args :=
  {| arg_model := default_model;
     arg_device := lit "cpu";
     arg_prompt := Some [];
     arg_interactive := false |}.

(** Both loads succeed, with the handles [tokenizer] and [model]. *)
Definition loads_succeed (env : Env) (args : Args)
    (tokenizer : Tokenizer) (model : Model) : Prop :=
  let device := resolve_device env (arg_device args) in
  hub_tokenizer env (arg_model args) = Ok tokenizer
  /\ hub_model env (arg_model args) (dtype_for device) device = Ok model.

(** No usable [--prompt]: the option is absent or its value is empty. *)
Definition no_prompt (args : Args) : Prop :=
  arg_prompt args = None \/ arg_prompt args = Some [].

(** The requests of the model loads in a trace, with their arguments. *)
Fixpoint model_requests (t : trace) : list (str * dtype * str) :=
  match t with
  | [] => []
  | ModelFromPretrained name dt dev :: t' => (name, dt, dev) :: model_requests t'
  | _ :: t' => model_requests t'
  end.

(** Runs the monadic code of [main] as far as its tests allow. *)
Ltac run_main :=
  cbv beta iota zeta delta
    [main load_model generate_response try_except bind interact print ret
     raise usable given fst snd].

(** Runs the monadic code of a pass as far as its tests allow. *)
Ltac run :=
  cbv beta iota zeta delta
    [loop_body generate_response try_except bind interact print ret raise
     usable negb fst snd].

(** * Properties *)

(** ** Facts about the string operations *)

Lemma eqb_eq (a b : str) : eqb a b = true <-> a = b.
Proof.
  revert b; induction a as [|x a IH]; intros [|y b]; simpl;
    try (split; [discriminate | congruence]); try tauto.
  rewrite andb_true_iff, N.eqb_eq, IH.
  split; [intros [-> ->]; reflexivity | intros E; injection E; auto].
Qed.

Lemma eqb_refl (a : str) : eqb a a = true.
Proof. apply eqb_eq; reflexivity. Qed.

Lemma eqb_neq (a b : str) : eqb a b = false <-> a <> b.
Proof.
  rewrite <- eqb_eq. destruct (eqb a b); split; congruence.
Qed.

Lemma startswith_iff (p s : str) :
  startswith p s = true <-> exists t, s = p ++ t.
Proof.
  revert s; induction p as [|x p IH]; intros s; simpl.
  - split; [exists s; reflexivity | reflexivity].
  - destruct s as [|y s].
    + split; [discriminate | intros [t E]; discriminate].
    + rewrite andb_true_iff, N.eqb_eq, IH. split.
      * intros [-> [t ->]]. exists t; reflexivity.
      * intros [t E]. injection E as -> ->. split; [reflexivity | now exists t].
Qed.

Lemma find_unfold (sub s : str) :
  find sub s =
  if startswith sub s then Some 0
  else match s with
       | [] => None
       | _ :: s' => option_map S (find sub s')
       end.
Proof. destruct s; reflexivity. Qed.

Lemma find_None (sub s : str) : find sub s = None -> ~ occurs sub s.
Proof.
  induction s as [|c s IH]; rewrite find_unfold;
    destruct (startswith sub _) eqn:P; try discriminate.
  - intros _ (pre & post & E). unfold occurs_at in E.
    destruct pre; [|discriminate]. destruct sub; [discriminate P|discriminate].
  - destruct (find sub s) eqn:F; [discriminate|]. intros _ (pre & post & E).
    unfold occurs_at in E. destruct pre as [|d pre]; simpl in E.
    + assert (startswith sub (c :: s) = true) by (apply startswith_iff; eauto).
      congruence.
    + injection E as _ E. apply IH; [reflexivity|]. now exists pre, post.
Qed.

(** [find] returns the position of an occurrence; what follows the
    occurrence is the text from [i + length sub] on. *)
Lemma find_Some (sub s : str) (i : nat) :
  find sub s = Some i ->
  exists post, occurs_at sub s (firstn i s) post /\ i <= length s
               /\ skipn (i + length sub) s = post.
Proof.
  revert i; induction s as [|c s IH]; intros i; rewrite find_unfold;
    destruct (startswith sub _) eqn:P.
  - intros [= <-]. apply startswith_iff in P as [t E]. exists t.
    unfold occurs_at. simpl. repeat split; auto.
    rewrite E at 1. now rewrite skipn_app, skipn_all, Nat.sub_diag.
  - discriminate.
  - intros [= <-]. apply startswith_iff in P as [t E]. exists t.
    unfold occurs_at. simpl firstn. simpl app at 1. repeat split; auto with arith.
    rewrite E at 1. simpl plus. now rewrite skipn_app, skipn_all, Nat.sub_diag.
  - destruct (find sub s) as [j|] eqn:F; [|discriminate]. intros [= <-].
    destruct (IH j eq_refl) as (post & E & L & K). exists post.
    unfold occurs_at in *. simpl. repeat split; [congruence | lia | exact K].
Qed.

(** [find] returns the leftmost occurrence. *)
Lemma find_leftmost (sub s pre post : str) (i : nat) :
  find sub s = Some i -> occurs_at sub s pre post -> i <= length pre.
Proof.
  revert i pre; induction s as [|c s IH]; intros i pre; rewrite find_unfold;
    destruct (startswith sub _) eqn:P; try (intros [= <-]; lia); try discriminate.
  destruct (find sub s) as [j|] eqn:F; [|discriminate]. intros [= <-] E.
  unfold occurs_at in E. destruct pre as [|d pre]; simpl in E.
  - assert (startswith sub (c :: s) = true) by (apply startswith_iff; eauto).
    congruence.
  - injection E as _ E. simpl. apply le_n_S. now apply (IH j pre).
Qed.

Lemma find_nonempty_in_nil (sep : str) : sep <> [] -> find sep [] = None.
Proof. destruct sep; [congruence | reflexivity]. Qed.

Lemma contains_iff (sub s : str) : contains sub s = true <-> occurs sub s.
Proof.
  unfold contains. destruct (find sub s) as [i|] eqn:F.
  - split; [intros _ | reflexivity].
    destruct (find_Some _ _ _ F) as (post & E & _). now exists (firstn i s), post.
  - split; [discriminate | intros O; now apply find_None in F].
Qed.

Lemma contains_false_iff (sub s : str) :
  contains sub s = false <-> ~ occurs sub s.
Proof.
  rewrite <- contains_iff. destruct (contains sub s); split; congruence.
Qed.

(** What [strip] removes and what it leaves. *)
Lemma lstrip_spec (s : str) :
  exists l, s = l ++ lstrip s /\ forallb isspace l = true
            /\ (forall c t, lstrip s = c :: t -> isspace c = false).
Proof.
  induction s as [|c s (l & E & W & H)]; simpl.
  - exists []. repeat split; auto. discriminate.
  - destruct (isspace c) eqn:Sp.
    + exists (c :: l). simpl. rewrite Sp, W. repeat split; auto. congruence.
    + exists []. repeat split; auto. now intros ? ? [= <- _].
Qed.

Lemma rstrip_spec (s : str) :
  exists r, s = rstrip s ++ r /\ forallb isspace r = true
            /\ (forall t c, rstrip s = t ++ [c] -> isspace c = false).
Proof.
  unfold rstrip. destruct (lstrip_spec (rev s)) as (l & E & W & H).
  exists (rev l). repeat split.
  - rewrite <- rev_app_distr, <- E. symmetry; apply rev_involutive.
  - rewrite forallb_forall in *. intros x I. apply W. now apply in_rev.
  - intros t c R. apply (H c (rev t)).
    rewrite <- (rev_involutive (lstrip (rev s))), R, rev_app_distr. reflexivity.
Qed.

(** [strip s] is [s] without a leading and a trailing run of whitespace,
    and neither begins nor ends with whitespace. *)
Lemma strip_spec (s : str) :
  exists l r,
    s = l ++ strip s ++ r
    /\ forallb isspace l = true /\ forallb isspace r = true
    /\ (forall c t, strip s = c :: t -> isspace c = false)
    /\ (forall t c, strip s = t ++ [c] -> isspace c = false).
Proof.
  unfold strip.
  destruct (lstrip_spec s) as (l & El & Wl & Hl).
  destruct (rstrip_spec (lstrip s)) as (r & Er & Wr & Hr).
  exists l, r. repeat split; auto.
  - now rewrite <- Er.
  - intros c t E. apply (Hl c (t ++ r)). now rewrite Er at 1; rewrite E.
Qed.

Lemma split_rounds_nonempty (r : nat) (sep s : str) : split_rounds r sep s <> [].
Proof. destruct r; simpl; [|destruct (find sep s)]; discriminate. Qed.

(** The number of rounds does not matter once it reaches [length s]. *)
Lemma split_rounds_enough (sep : str) (r : nat) :
  sep <> [] ->
  forall s, length s <= r -> split_rounds r sep s = split sep s.
Proof.
  intros Hsep. unfold split.
  assert (G : forall r1 r2 s, length s <= r1 -> length s <= r2 ->
                split_rounds r1 sep s = split_rounds r2 sep s).
  { induction r1 as [|r1 IH]; intros r2 s L1 L2.
    - assert (s = []) as -> by (destruct s; [reflexivity | simpl in L1; lia]).
      destruct r2; cbn [split_rounds]; [reflexivity|].
      now rewrite find_nonempty_in_nil.
    - destruct r2 as [|r2].
      + assert (s = []) as -> by (destruct s; [reflexivity | simpl in L2; lia]).
        cbn [split_rounds]. now rewrite find_nonempty_in_nil.
      + cbn [split_rounds]. destruct (find sep s) as [i|] eqn:F; [|reflexivity].
        f_equal. assert (0 < length sep) by (destruct sep; [congruence | simpl; lia]).
        apply IH; rewrite length_skipn; lia. }
  intros s L. apply G; [exact L | reflexivity].
Qed.

Lemma app_eq_agree (a b u v : str) : a ++ u = b ++ v -> agree a b = true.
Proof.
  revert b; induction a as [|x a IH]; intros [|y b]; simpl; auto.
  intros [= -> E]. rewrite N.eqb_refl. simpl. eauto.
Qed.

(** An occurrence of an unbordered [w] that starts no later than another one
    is that one or ends before it starts. *)
Lemma occurrence_before (w x y a b : str) :
  unbordered w = true ->
  x ++ w ++ y = a ++ w ++ b ->
  length x <= length a ->
  x = a \/ exists m, a = x ++ w ++ m.
Proof.
  intros U E L. apply app_eq_app in E as [l [[-> E] | [-> E]]].
  - rewrite length_app in L. destruct l; [|simpl in L; lia].
    left. apply app_nil_r.
  - apply app_eq_app in E as [l2 [[W E] | [-> _]]]; [|right; now exists l2].
    destruct l as [|c l]; [left; symmetry; apply app_nil_r|].
    destruct l2 as [|d l2].
    + right. exists []. rewrite app_nil_r in W. now rewrite W, app_nil_r.
    + exfalso. unfold unbordered in U. rewrite forallb_forall in U.
      assert (I : In (length (c :: l)) (seq 1 (length w - 1))).
      { apply in_seq. rewrite W, length_app. simpl. lia. }
      apply U in I. rewrite W in I at 1.
      rewrite skipn_app, skipn_all, Nat.sub_diag in I. simpl skipn in I.
      symmetry in E. apply app_eq_agree in E. simpl app in I.
      rewrite E in I. discriminate.
Qed.

Lemma last_cons_nonempty (a : str) (l : list str) :
  l <> [] -> last (a :: l) [] = last l [].
Proof. destruct l; [congruence | reflexivity]. Qed.

(** [split(sep)[-1]] is the text after the last occurrence of [sep]. *)
Lemma last_piece_split (sep s pre post : str) :
  unbordered sep = true -> sep <> [] ->
  occurs_at sep s pre post -> ~ occurs sep post ->
  last_piece (split sep s) = post.
Proof.
  intros U Hsep O N. unfold last_piece, split.
  assert (G : forall r s pre, length s <= r -> occurs_at sep s pre post ->
                last (split_rounds r sep s) [] = post);
    [| now apply (G (length s) s pre)].
  clear s pre O. induction r as [|r IH]; intros s pre L O.
  - destruct s; [|simpl in L; lia]. unfold occurs_at in O.
    destruct pre; [|discriminate]. destruct sep; [congruence | discriminate].
  - cbn [split_rounds]. destruct (find sep s) as [i|] eqn:F;
      [| exfalso; apply (find_None _ _ F); now exists pre, post].
    destruct (find_Some _ _ _ F) as (post0 & O0 & Li & K).
    pose proof (find_leftmost _ _ _ _ _ F O) as Lp.
    rewrite last_cons_nonempty by apply split_rounds_nonempty.
    rewrite K. unfold occurs_at in O, O0.
    assert (E : firstn i s ++ sep ++ post0 = pre ++ sep ++ post) by congruence.
    apply occurrence_before in E as Cases;
      [| exact U | rewrite length_firstn; lia].
    destruct Cases as [X | [m X]].
    + rewrite X in E. apply app_inv_head in E. apply app_inv_head in E.
      rewrite E. destruct r; cbn [split_rounds]; [reflexivity|].
      destruct (find sep post) eqn:F'; [|reflexivity].
      exfalso. apply N. apply contains_iff. unfold contains. now rewrite F'.
    + rewrite X, <- !app_assoc in E. apply app_inv_head in E.
      apply app_inv_head in E. apply (IH post0 m); [| exact E].
      rewrite <- K, length_skipn.
      assert (0 < length sep) by (destruct sep; [congruence | simpl; lia]).
      lia.
Qed.

(** [split(sep)[0]] is the text before the first occurrence of [sep]. *)
Lemma first_piece_split (sep s : str) (i : nat) :
  sep <> [] -> find sep s = Some i ->
  first_piece (split sep s) = firstn i s.
Proof.
  intros Hsep F. unfold first_piece, split. destruct s as [|c s].
  - rewrite find_nonempty_in_nil in F by exact Hsep. discriminate.
  - cbn [length split_rounds]. rewrite F. reflexivity.
Qed.

Lemma markers_nonempty :
  im_start_assistant <> [] /\ lit "<|im_end|" <> [].
Proof. split; vm_compute; discriminate. Qed.

Lemma markers_unbordered :
  unbordered im_start_assistant = true /\ unbordered (lit "<|im_end|") = true.
Proof. split; vm_compute; reflexivity. Qed.

(** ** The Response Extractor *)

(** C3, as stated, fails: [end_marker_only] has no assistant-start marker,
    and the extractor does not return it trimmed but cuts it at the end
    marker. *)
Lemma extract_without_start_marker_cuts_at_end :
  ~ occurs im_start_assistant end_marker_only
  /\ extract_response end_marker_only = lit "a"
  /\ strip end_marker_only = lit "a<|im_end|>b"
  /\ extract_response end_marker_only <> strip end_marker_only.
Proof.
  split; [apply contains_false_iff; vm_compute; reflexivity|].
  split; [vm_compute; reflexivity|].
  split; [vm_compute; reflexivity|].
  vm_compute. discriminate.
Qed.

(** C3 (amended): for every raw decoded text in which neither the
    assistant-start marker nor the end marker [<|im_end|>] occurs, the
    extractor returns the text with its leading and trailing whitespace
    trimmed and nothing else changed. *)
Theorem extract_without_markers_is_strip (raw : str) :
  ~ occurs im_start_assistant raw ->
  ~ occurs im_end raw ->
  extract_response raw = strip raw.
Proof.
  intros Hs He. apply contains_false_iff in Hs, He.
  unfold extract_response. rewrite Hs, He. reflexivity.
Qed.

Lemma extract_without_markers_is_strip_witness :
  extract_response (lit "  plain answer ") = strip (lit "  plain answer ")
  /\ strip (lit "  plain answer ") = lit "plain answer".
Proof.
  split.
  - apply extract_without_markers_is_strip;
      apply contains_false_iff; vm_compute; reflexivity.
  - vm_compute; reflexivity.
Defined.

(** X3: when no end marker follows the last assistant-start marker of the
    decoded text, the extractor returns what follows that marker, trimmed,
    whatever precedes the marker. *)
Theorem extract_after_last_marker (raw pre post : str) :
  occurs_at im_start_assistant raw pre post ->
  ~ occurs im_start_assistant post ->
  ~ occurs im_end post ->
  extract_response raw = strip post.
Proof.
  intros O Ns Ne. unfold extract_response.
  assert (C : contains im_start_assistant raw = true)
    by (apply contains_iff; now exists pre, post).
  rewrite C, (last_piece_split _ _ _ _ (proj1 markers_unbordered)
                (proj1 markers_nonempty) O Ns).
  apply contains_false_iff in Ne. now rewrite Ne.
Qed.

(** X4: when the answer after the last assistant-start marker is closed by
    an end marker and does not itself contain [<|im_end|], the extractor
    returns the answer, trimmed, whatever follows the end marker. *)
Theorem extract_answer_before_end_marker (raw pre answer rest : str) :
  occurs_at im_start_assistant raw pre (answer ++ im_end ++ rest) ->
  ~ occurs im_start_assistant (answer ++ im_end ++ rest) ->
  ~ occurs (lit "<|im_end|") answer ->
  extract_response raw = strip answer.
Proof.
  intros O Ns Na. unfold extract_response.
  assert (C : contains im_start_assistant raw = true)
    by (apply contains_iff; now exists pre, (answer ++ im_end ++ rest)).
  rewrite C, (last_piece_split _ _ _ _ (proj1 markers_unbordered)
                (proj1 markers_nonempty) O Ns).
  assert (Ce : contains im_end (answer ++ im_end ++ rest) = true)
    by (apply contains_iff; now exists answer, rest).
  rewrite Ce.
  assert (Oe : occurs_at (lit "<|im_end|") (answer ++ im_end ++ rest)
                 answer (lit ">" ++ rest)).
  { unfold occurs_at. change im_end with (lit "<|im_end|" ++ lit ">").
    now rewrite <- !app_assoc. }
  destruct (find (lit "<|im_end|") (answer ++ im_end ++ rest)) as [i|] eqn:F;
    [| exfalso; apply (find_None _ _ F); now exists answer, (lit ">" ++ rest)].
  rewrite (first_piece_split _ _ _ (proj2 markers_nonempty) F).
  destruct (find_Some _ _ _ F) as (post0 & O0 & Li & _).
  pose proof (find_leftmost _ _ _ _ _ F Oe) as Lp.
  unfold occurs_at in O0, Oe. rewrite Oe in O0 at 1. symmetry in O0.
  apply occurrence_before in O0 as [X | [m X]];
    [now rewrite X | | exact (proj2 markers_unbordered)
     | rewrite length_firstn; lia].
  exfalso. apply Na. now exists (firstn i (answer ++ im_end ++ rest)), m.
Qed.

(** C4: the code cuts the answer at [<|im_end|] (no closing [>]) although it
    tests for [<|im_end|>]: on [unclosed_end_text] it returns [A], where the
    text after the last assistant-start marker, cut at the end marker, is
    [A<|im_end|B].  On the specification's own example both agree. *)
Theorem extract_cuts_at_unclosed_end_marker :
  occurs im_start_assistant unclosed_end_text
  /\ extract_response unclosed_end_text = lit "A"
  /\ extract_as_specified unclosed_end_text = lit "A<|im_end|B"
  /\ extract_response
       (lit "..." ++ im_start_assistant ++ lit "Hello there" ++ im_end)
     = lit "Hello there".
Proof.
  split; [apply contains_iff; vm_compute; reflexivity|].
  repeat split; vm_compute; reflexivity.
Qed.

(** ** The Prompt Renderer *)

(** C9: an empty conversation and the new user message [hi] render as the
    user-wrapped [hi] followed by the open assistant-start marker, and
    nothing else. *)
Theorem render_empty_conversation_hi :
  full_prompt [] hi
  = lit "<|im_start|>user" ++ nl ++ lit "hi<|im_end|>" ++ nl
    ++ lit "<|im_start|>assistant" ++ nl.
Proof. reflexivity. Qed.

Lemma every_cut_excluded :
  forallb cut_excluded (seq 0 (S (length prompt_end))) = true.
Proof. vm_compute. reflexivity. Qed.

Lemma full_prompt_end (h : list Turn) (user_input : str) :
  full_prompt h user_input
  = (render_history h ++ im_start_user ++ user_input) ++ prompt_end.
Proof. unfold full_prompt, prompt_end. now rewrite <- !app_assoc. Qed.

Lemma open_marker_is_last (body pre post : str) :
  open_marker_at (body ++ prompt_end) pre post -> post = [].
Proof.
  intros [O E]. unfold occurs_at in O. rewrite app_assoc in O. symmetry in O.
  apply app_eq_app in O as [l [[P T] | [_ T]]].
  - assert (C : cut_excluded (length l) = true).
    { pose proof every_cut_excluded as A. rewrite forallb_forall in A.
      apply A, in_seq. rewrite T, length_app. lia. }
    unfold cut_excluded in C.
    assert (L : firstn (length l) prompt_end = l).
    { rewrite T, firstn_app, firstn_all, Nat.sub_diag. simpl.
      apply app_nil_r. }
    assert (K : skipn (length l) prompt_end = post).
    { rewrite T, skipn_app, skipn_all, Nat.sub_diag. reflexivity. }
    rewrite L, K in C. apply orb_true_iff in C as [C | C];
      [apply orb_true_iff in C as [C | C] |].
    + destruct post; [reflexivity | discriminate].
    + apply contains_iff in C. contradiction.
    + apply (f_equal (@rev _)) in P. rewrite !rev_app_distr in P.
      apply app_eq_agree in P. rewrite P in C. discriminate.
  - exfalso. apply E. exists l, (nl ++ im_start_assistant).
    unfold occurs_at. rewrite T. reflexivity.
Qed.

(** C5: for every non-empty conversation, whatever the roles and contents
    of its turns, and every new user message, the rendered prompt has
    exactly one open assistant-start marker, and it is the end of the
    prompt: the prompt ends with the marker, and every occurrence of the
    marker that no end marker follows is that one. *)
Theorem rendered_prompt_one_open_marker
    (h : list Turn) (user_input : str) :
  h <> [] ->
  exists pre,
    open_marker_at (full_prompt h user_input) pre []
    /\ forall pre' post',
         open_marker_at (full_prompt h user_input) pre' post' ->
         pre' = pre /\ post' = [].
Proof.
  intros _. exists (render_history h ++ im_start_user ++ user_input ++ im_end ++ nl).
  assert (O : open_marker_at (full_prompt h user_input)
                (render_history h ++ im_start_user ++ user_input ++ im_end ++ nl) []).
  { split.
    - unfold occurs_at, full_prompt. now rewrite <- !app_assoc, app_nil_r.
    - apply contains_false_iff. reflexivity. }
  split; [exact O |]. intros pre' post' O'.
  assert (post' = []) as ->.
  { rewrite full_prompt_end in O'. now apply open_marker_is_last in O'. }
  split; [|reflexivity].
  destruct O as [O _], O' as [O' _]. unfold occurs_at in *.
  rewrite O in O'. rewrite !app_nil_r in O'.
  now apply app_inv_tail in O'.
Qed.

Lemma rendered_prompt_one_open_marker_witness :
  exists pre,
    open_marker_at
      (full_prompt [ {| role := user; content := hi |};
                     {| role := assistant; content := im_start_assistant |} ]
                   hello) pre []
    /\ forall pre' post',
         open_marker_at
           (full_prompt [ {| role := user; content := hi |};
                          {| role := assistant; content := im_start_assistant |} ]
                        hello) pre' post' ->
         pre' = pre /\ post' = [].
Proof.
  apply rendered_prompt_one_open_marker. discriminate.
Defined.

(** ** The session controller *)

Lemma triggers_generation_tests (line : str) :
  triggers_generation line ->
  eqb (lower (strip line)) (lit "quit") = false
  /\ eqb (lower (strip line)) (lit "clear") = false
  /\ truthy (strip line) = true.
Proof.
  intros (Q & C & E). rewrite !eqb_neq. repeat split; auto.
  destruct (strip line); [congruence | reflexivity].
Qed.

(** How the loop goes on after one pass. *)
Lemma chat_loop_one_pass (stdin : result str) (provider : Provider)
    (h : list Turn) (tr : trace) :
  chat_loop [(stdin, provider)] h tr
  = match loop_body stdin provider h tr with
    | (Ok (Continue, h'), t) => (Ok (AwaitingInput, h'), t)
    | (Ok (Break, h'), t) => (Ok (Terminated, h'), t)
    | (Raise e, t) => (Raise e, t)
    end.
Proof.
  cbn [chat_loop]. unfold bind at 1.
  destruct (loop_body stdin provider h tr) as [[[[|] h']|e] t]; reflexivity.
Qed.

(** C1, as stated, fails: after a failed generation for the input [hi] the
    loop awaits input again, but the history is still empty; the user turn
    was not appended. *)
Lemma failed_generation_appends_no_user_turn :
  triggers_generation hi
  /\ failing_provider (formatted_prompt (full_prompt [] hi))
     = Raise (Exception (lit "CUDA out of memory"))
  /\ fst (chat_loop [(Ok hi, failing_provider)] [] [])
     = Ok (AwaitingInput, [])
  /\ fst (chat_loop [(Ok hi, failing_provider)] [] [])
     <> Ok (AwaitingInput, [] ++ [ {| role := user; content := hi |} ]).
Proof.
  split; [repeat split; vm_compute; discriminate|].
  split; [reflexivity|].
  split; [vm_compute; reflexivity|].
  vm_compute. discriminate.
Qed.

(** C1 (amended): in interactive mode, for every input that triggers
    generation, if the provider call fails, the conversation history
    afterwards is the history from before (neither a user turn nor an
    assistant turn is appended), the failure is reported, and the loop
    continues with the next input instead of terminating. *)
Theorem failed_generation_keeps_history
    (h : list Turn) (line : str) (provider : Provider) (msg : str) (tr : trace) :
  triggers_generation line ->
  provider (formatted_prompt (full_prompt h (strip line)))
    = Raise (Exception msg) ->
  chat_loop [(Ok line, provider)] h tr
  = (Ok (AwaitingInput, h),
     tr ++ [ Input (nl ++ [128100%N] ++ lit " You: ");
             Print (nl ++ [129302%N] ++ lit " Assistant is thinking...");
             Generate (formatted_prompt (full_prompt h (strip line))) 200;
             Print ([10060%N] ++ lit " Error generating response: " ++ msg);
             Print ([10060%N] ++ lit " Failed to generate response") ]).
Proof.
  intros T F. destruct (triggers_generation_tests line T) as (Q & C & E).
  rewrite chat_loop_one_pass. run. rewrite Q, C, E. run. rewrite F. run.
  rewrite <- !app_assoc. reflexivity.
Qed.

Lemma failed_generation_keeps_history_witness :
  chat_loop [(Ok hi, failing_provider)] [] []
  = (Ok (AwaitingInput, []),
     [] ++ [ Input (nl ++ [128100%N] ++ lit " You: ");
             Print (nl ++ [129302%N] ++ lit " Assistant is thinking...");
             Generate (formatted_prompt (full_prompt [] (strip hi))) 200;
             Print ([10060%N] ++ lit " Error generating response: "
                    ++ lit "CUDA out of memory");
             Print ([10060%N] ++ lit " Failed to generate response") ]).
Proof.
  apply (@failed_generation_keeps_history [] hi failing_provider
           (lit "CUDA out of memory") []).
  - repeat split; vm_compute; discriminate.
  - reflexivity.
Defined.

Lemma formatted_prompt_longer (prompt : str) :
  length (formatted_prompt prompt) = length prompt + 50.
Proof.
  unfold formatted_prompt. rewrite !length_app. simpl. lia.
Qed.

(** C2: for every non-empty, non-command input the one string handed to the
    provider is the rendered conversation, which already ends in the open
    assistant-start marker, wrapped once more in a user turn and followed
    by a second open assistant-start marker; it is not the rendered
    conversation itself. *)
Theorem provider_receives_rewrapped_prompt
    (h : list Turn) (line : str) (provider : Provider) (tr : trace) :
  triggers_generation line ->
  exists tr',
    snd (loop_body (Ok line) provider h tr) = tr ++ tr'
    /\ submitted tr'
       = [ lit "<|im_start|>user" ++ nl
           ++ full_prompt h (strip line)
           ++ lit "<|im_end|>" ++ nl ++ lit "<|im_start|>assistant" ++ nl ]
    /\ (exists body,
          full_prompt h (strip line)
          = body ++ lit "<|im_start|>assistant" ++ nl)
    /\ ~ In (full_prompt h (strip line)) (submitted tr').
Proof.
  intros T. destruct (triggers_generation_tests line T) as (Q & C & E).
  assert (W : forall events : trace,
             submitted events = [formatted_prompt (full_prompt h (strip line))] ->
             submitted events
             = [ lit "<|im_start|>user" ++ nl ++ full_prompt h (strip line)
                 ++ lit "<|im_end|>" ++ nl ++ lit "<|im_start|>assistant" ++ nl ]
             /\ (exists body,
                   full_prompt h (strip line)
                   = body ++ lit "<|im_start|>assistant" ++ nl)
             /\ ~ In (full_prompt h (strip line)) (submitted events)).
  { intros events ->. split; [|split].
    - unfold formatted_prompt, im_start_user, im_end, im_start_assistant.
      now rewrite <- !app_assoc.
    - exists (render_history h ++ im_start_user ++ strip line ++ im_end ++ nl).
      unfold full_prompt. now rewrite <- !app_assoc.
    - intros [I|[]]. apply (f_equal (@length _)) in I.
      rewrite formatted_prompt_longer in I. lia. }
  run. rewrite Q, C, E. run.
  destruct (provider _) as [raw | [msg|]]; run.
  - destruct (truthy (extract_response raw)); run;
      eexists; (split; [rewrite <- !app_assoc; reflexivity | apply W; reflexivity]).
  - eexists; (split; [rewrite <- !app_assoc; reflexivity | apply W; reflexivity]).
  - eexists; (split; [rewrite <- !app_assoc; reflexivity | apply W; reflexivity]).
Qed.

Lemma provider_receives_rewrapped_prompt_witness :
  exists tr',
    snd (loop_body (Ok hi) hello_provider [] []) = [] ++ tr'
    /\ submitted tr'
       = [ lit "<|im_start|>user" ++ nl
           ++ full_prompt [] (strip hi)
           ++ lit "<|im_end|>" ++ nl ++ lit "<|im_start|>assistant" ++ nl ]
    /\ (exists body,
          full_prompt [] (strip hi) = body ++ lit "<|im_start|>assistant" ++ nl)
    /\ ~ In (full_prompt [] (strip hi)) (submitted tr').
Proof.
  apply (@provider_receives_rewrapped_prompt [] hi hello_provider []).
  repeat split; vm_compute; discriminate.
Defined.

(** C7: starting from an empty conversation, one successful round trip with
    the input [hi] and an answer extracted as [hello] leaves the history
    [user: hi; assistant: hello], of length 2, and the loop awaiting input. *)
Theorem one_round_trip_history (provider : Provider) (raw : str) (tr : trace) :
  provider (formatted_prompt (full_prompt [] hi)) = Ok raw ->
  extract_response raw = hello ->
  exists tr',
    interactive_chat [(Ok hi, provider)] tr
    = (Ok (AwaitingInput,
           [ {| role := user; content := hi |};
             {| role := assistant; content := hello |} ]), tr')
    /\ length [ {| role := user; content := hi |};
                {| role := assistant; content := hello |} ] = 2.
Proof.
  intros P X.
  assert (S : strip hi = hi) by (vm_compute; reflexivity).
  assert (Q : eqb (lower hi) (lit "quit") = false) by (vm_compute; reflexivity).
  assert (C : eqb (lower hi) (lit "clear") = false) by (vm_compute; reflexivity).
  unfold interactive_chat. unfold bind at 1 2 3. unfold print at 1 2 3.
  unfold interact at 1 2 3. rewrite chat_loop_one_pass.
  run. rewrite S, Q, C. change (truthy hi) with true. run. rewrite P. run.
  rewrite X. change (truthy hello) with true. run.
  eexists. split; reflexivity.
Qed.

Lemma one_round_trip_history_witness :
  exists tr',
    interactive_chat [(Ok hi, hello_provider)] []
    = (Ok (AwaitingInput,
           [ {| role := user; content := hi |};
             {| role := assistant; content := hello |} ]), tr')
    /\ length [ {| role := user; content := hi |};
                {| role := assistant; content := hello |} ] = 2.
Proof.
  apply (@one_round_trip_history hello_provider
           (im_start_assistant ++ hello ++ im_end) []).
  - reflexivity.
  - vm_compute. reflexivity.
Defined.

(** C8: whatever the history was, the clear command leaves an empty history
    and the loop awaiting the next input; the pass reads the line, prints
    the confirmation and hands nothing to the provider. *)
Theorem clear_resets_history
    (h : list Turn) (line : str) (provider : Provider) (tr : trace) :
  lower (strip line) = lit "clear" ->
  chat_loop [(Ok line, provider)] h tr
  = (Ok (AwaitingInput, []),
     tr ++ [ Input (nl ++ [128100%N] ++ lit " You: ");
             Print ([129529%N] ++ lit " Conversation cleared!") ])
  /\ submitted [ Input (nl ++ [128100%N] ++ lit " You: ");
                 Print ([129529%N] ++ lit " Conversation cleared!") ] = [].
Proof.
  intros L. split; [|reflexivity].
  rewrite chat_loop_one_pass. run. rewrite L.
  change (eqb (lit "clear") (lit "quit")) with false.
  change (eqb (lit "clear") (lit "clear")) with true.
  run. rewrite <- !app_assoc. reflexivity.
Qed.

Lemma clear_resets_history_witness :
  chat_loop [(Ok (lit "  CLEAR "), hello_provider)]
    [ {| role := user; content := hi |};
      {| role := assistant; content := hello |} ] []
  = (Ok (AwaitingInput, []),
     [] ++ [ Input (nl ++ [128100%N] ++ lit " You: ");
             Print ([129529%N] ++ lit " Conversation cleared!") ])
  /\ submitted [ Input (nl ++ [128100%N] ++ lit " You: ");
                 Print ([129529%N] ++ lit " Conversation cleared!") ] = [].
Proof.
  apply (@clear_resets_history _ (lit "  CLEAR ") hello_provider []).
  vm_compute. reflexivity.
Defined.

(** One pass never raises.  It leaves the history as it was, or empty, or
    extended by a user turn and an assistant turn together; the last only
    when a line was read, the provider returned a text for it, and the
    answer extracted from that text is not empty. *)
Lemma loop_body_history (stdin : result str) (provider : Provider)
    (h : list Turn) (tr : trace) :
  exists c h' tr',
    loop_body stdin provider h tr = (Ok (c, h'), tr')
    /\ (h' = h \/ h' = []
        \/ exists line raw,
             stdin = Ok line
             /\ provider (formatted_prompt (full_prompt h (strip line))) = Ok raw
             /\ extract_response raw <> []
             /\ h' = h ++ [ {| role := user; content := strip line |} ]
                      ++ [ {| role := assistant;
                              content := extract_response raw |} ]).
Proof.
  destruct stdin as [line | [msg|]]; run;
    [| do 3 eexists; split; [reflexivity | now left] ..].
  destruct (eqb (lower (strip line)) (lit "quit")); run;
    [do 3 eexists; split; [reflexivity | now left] |].
  destruct (eqb (lower (strip line)) (lit "clear")); run;
    [do 3 eexists; split; [reflexivity | now right; left] |].
  destruct (truthy (strip line)); run;
    [| do 3 eexists; split; [reflexivity | now left]].
  destruct (provider _) as [raw | [msg|]] eqn:P; run;
    [| do 3 eexists; split; [reflexivity | now left] ..].
  destruct (truthy (extract_response raw)) eqn:R; run;
    do 3 eexists; (split; [reflexivity |]); [| now left].
  right; right. exists line, raw. repeat split; auto.
  intros X. rewrite X in R. discriminate.
Qed.

Lemma loop_body_even (stdin : result str) (provider : Provider)
    (h : list Turn) (tr : trace) :
  Nat.Even (length h) ->
  exists c h' tr',
    loop_body stdin provider h tr = (Ok (c, h'), tr')
    /\ Nat.Even (length h').
Proof.
  intros Ev.
  destruct (loop_body_history stdin provider h tr) as (c & h' & t & E & Hh).
  exists c, h', t. split; [exact E |].
  destruct Hh as [-> | [-> | (line & raw & _ & _ & _ & ->)]]; auto.
  - exists 0; reflexivity.
  - destruct Ev as [k Ek]. exists (S k). rewrite !length_app, Ek. simpl. lia.
Qed.


Lemma chat_loop_even (script : list (result str * Provider))
    (h : list Turn) (tr : trace) :
  Nat.Even (length h) ->
  exists st h' tr',
    chat_loop script h tr = (Ok (st, h'), tr') /\ Nat.Even (length h').
Proof.
  revert h tr; induction script as [|[stdin provider] script IH]; intros h tr Ev.
  - do 3 eexists. split; [reflexivity | exact Ev].
  - cbn [chat_loop]. unfold bind.
    destruct (loop_body_even stdin provider h tr Ev) as (c & h' & t & -> & Ev').
    destruct c; [apply IH; exact Ev' |].
    do 3 eexists. split; [reflexivity | exact Ev'].
Qed.

Lemma awaiting_histories_even (script : list (result str * Provider))
    (h : list Turn) (tr : trace) :
  Nat.Even (length h) ->
  Forall (fun h' => Nat.Even (length h')) (awaiting_histories script h tr).
Proof.
  revert h tr; induction script as [|[stdin provider] script IH]; intros h tr Ev;
    cbn [awaiting_histories]; constructor; auto.
  destruct (loop_body_even stdin provider h tr Ev) as (c & h' & t & -> & Ev').
  destruct c; [apply IH; exact Ev' | constructor].
Qed.

(** The history with which a run that is still awaiting input ends is the
    last of its [awaiting_histories]. *)
Lemma chat_loop_awaiting_last (script : list (result str * Provider))
    (h : list Turn) (tr : trace) (h' : list Turn) (tr' : trace) :
  chat_loop script h tr = (Ok (AwaitingInput, h'), tr') ->
  last (awaiting_histories script h tr) [] = h'.
Proof.
  revert h tr; induction script as [|[stdin provider] script IH]; intros h tr.
  - cbn. now intros [= ->].
  - cbn [chat_loop awaiting_histories]. unfold bind.
    destruct (loop_body_history stdin provider h tr) as (c & h1 & t & -> & _).
    destruct c; [| discriminate]. intros E. apply IH in E.
    destruct (awaiting_histories script h1 t) eqn:A; [| exact E].
    destruct script as [|[? ?] ?]; discriminate A.
Qed.

(** C6: the history length is even at every point where the interactive loop
    awaits input: at startup and after every pass, whatever the pass was (a
    command, an empty line, an interrupt, a generation attempt that succeeds
    or fails), for every console script and every behaviour of the provider.
    The run itself never raises and ends with a history of even length.
    The two turns are only appended together, after a successful generation
    ([loop_body_history]). *)
Theorem history_length_even_when_awaiting
    (script : list (result str * Provider)) (tr : trace) :
  Forall (fun h => Nat.Even (length h)) (awaiting_histories script [] tr)
  /\ exists st h tr',
       interactive_chat script tr = (Ok (st, h), tr')
       /\ Nat.Even (length h).
Proof.
  split.
  - apply awaiting_histories_even. exists 0; reflexivity.
  - unfold interactive_chat. unfold bind at 1 2 3. unfold print, interact.
    apply chat_loop_even. exists 0; reflexivity.
Qed.

(** ** Loading *)

(** The first thing [generate_response] does is hand the formatted prompt to
    the provider, and the first thing [interactive_chat] does is print its
    banner: a trace without a [Generate] event and without the banner is a
    run that reached neither. *)
Lemma generate_response_submits (provider : Provider) (prompt : str)
    (max_length : N) (tr : trace) :
  exists tr',
    snd (generate_response provider prompt max_length tr)
    = tr ++ Generate (formatted_prompt prompt) max_length :: tr'.
Proof.
  run. destruct (provider _) as [raw | [msg|]]; run.
  - now exists [].
  - eexists. rewrite <- app_assoc. reflexivity.
  - now exists [].
Qed.


(** C10: when loading the tokenizer or the model fails, the failure is
    printed with the remediation hints, each load was attempted at most once
    (no retry), and the program ends: no prompt reaches the provider, no
    line is read, and the banner of the interactive mode is not printed, so
    neither [generate_response] nor [interactive_chat] was entered. *)
Theorem load_failure_ends_program
    (args : Args) (env : Env) (msg : str) (tr : trace) :
  load_fails env args msg ->
  exists tr',
    main args env tr = (Ok tt, tr ++ tr')
    /\ incl [ Print ([10060%N] ++ lit " Error loading model: " ++ msg);
              Print (nl ++ [128161%N] ++ lit " Tips:");
              Print (lit "1. Make sure you have enough RAM (at least 16GB recommended)");
              Print (lit "2. Consider using a smaller model variant if you have memory issues");
              Print (lit "3. Check your internet connection for the first download") ]
            tr'
    /\ length (tokenizer_loads tr') = 1
    /\ length (model_loads tr') <= 1
    /\ submitted tr' = []
    /\ inputs tr' = []
    /\ ~ In (Print (nl ++ [129302%N] ++ lit " Interactive Chat Mode")) tr'.
Proof.
  intros [F | (tokenizer & T & F)];
    cbv beta iota zeta delta [main load_model try_except bind interact print
                              ret raise];
    [rewrite F | rewrite T, F];
    (eexists; split; [rewrite <- !app_assoc; reflexivity |]);
    (split; [intros x I; cbn in I |- *; tauto |]);
    repeat (split; [cbn; auto |]);
    intros I; cbn in I;
    repeat (destruct I as [I | I]; [discriminate I |]); exact I.
Qed.

Lemma load_failure_ends_program_witness :
  exists tr',
    main interactive_args offline_env [] = (Ok tt, [] ++ tr')
    /\ incl [ Print ([10060%N] ++ lit " Error loading model: "
                     ++ lit "Connection error");
              Print (nl ++ [128161%N] ++ lit " Tips:");
              Print (lit "1. Make sure you have enough RAM (at least 16GB recommended)");
              Print (lit "2. Consider using a smaller model variant if you have memory issues");
              Print (lit "3. Check your internet connection for the first download") ]
            tr'
    /\ length (tokenizer_loads tr') = 1
    /\ length (model_loads tr') <= 1
    /\ submitted tr' = []
    /\ inputs tr' = []
    /\ ~ In (Print (nl ++ [129302%N] ++ lit " Interactive Chat Mode")) tr'.
Proof.
  apply (@load_failure_ends_program interactive_args offline_env
           (lit "Connection error") []).
  left. reflexivity.
Defined.

(** * Further properties of the code *)

(** ** More on the string operations *)

Lemma occurs_infix (sub l m r : str) :
  occurs sub m -> occurs sub (l ++ m ++ r).
Proof.
  intros (pre & post & ->). exists (l ++ pre), (post ++ r).
  unfold occurs_at. now rewrite <- !app_assoc.
Qed.

Lemma occurs_nil (sub : str) : sub <> [] -> ~ occurs sub [].
Proof.
  intros N (pre & post & E). unfold occurs_at in E.
  destruct pre; [|discriminate]. destruct sub; [congruence | discriminate].
Qed.

(** The last piece of a split holds no separator. *)
Lemma last_piece_no_sep (sep s : str) :
  sep <> [] -> ~ occurs sep (last_piece (split sep s)).
Proof.
  intros Hsep. unfold last_piece, split.
  assert (G : forall r s, length s <= r ->
                ~ occurs sep (last (split_rounds r sep s) []));
    [| now apply G].
  clear s. induction r as [|r IH]; intros s L.
  - destruct s; [|simpl in L; lia]. cbn. now apply occurs_nil.
  - cbn [split_rounds]. destruct (find sep s) as [i|] eqn:F.
    + rewrite last_cons_nonempty by apply split_rounds_nonempty.
      apply IH. rewrite length_skipn.
      assert (0 < length sep) by (destruct sep; [congruence | simpl; lia]).
      lia.
    + cbn. now apply find_None.
Qed.

(** The text before the first separator holds no separator. *)
Lemma before_find_no_sep (sep s : str) (i : nat) :
  sep <> [] -> find sep s = Some i -> ~ occurs sep (firstn i s).
Proof.
  intros Hsep F (pre & post & E). unfold occurs_at in E.
  destruct (find_Some _ _ _ F) as (_ & _ & Li & _).
  assert (O : occurs_at sep s pre (post ++ skipn i s)).
  { unfold occurs_at. rewrite <- (firstn_skipn i s) at 1.
    now rewrite E, <- !app_assoc. }
  pose proof (find_leftmost _ _ _ _ _ F O) as Lp.
  apply (f_equal (@length _)) in E.
  rewrite length_firstn, !length_app in E.
  assert (0 < length sep) by (destruct sep; [congruence | simpl; lia]).
  lia.
Qed.

Lemma lstrip_whitespace (s : str) : forallb isspace s = true -> lstrip s = [].
Proof.
  induction s as [|c s IH]; simpl; [reflexivity|].
  intros H. apply andb_true_iff in H as [-> H]. auto.
Qed.

Lemma strip_whitespace (s : str) : forallb isspace s = true -> strip s = [].
Proof. intros H. unfold strip. now rewrite lstrip_whitespace. Qed.

(** A text that neither begins nor ends with whitespace is its own trim. *)
Lemma strip_fixed (s : str) :
  (forall c t, s = c :: t -> isspace c = false) ->
  (forall t c, s = t ++ [c] -> isspace c = false) ->
  strip s = s.
Proof.
  intros Hh Ht. unfold strip.
  assert (L : lstrip s = s).
  { destruct s as [|c t]; [reflexivity|]. simpl. now rewrite (Hh c t). }
  rewrite L. unfold rstrip.
  destruct (rev s) as [|c t] eqn:R; [now apply (f_equal (@rev _)) in R;
                                      rewrite rev_involutive in R|].
  simpl. rewrite (Ht (rev t) c).
  - rewrite <- R. apply rev_involutive.
  - apply (f_equal (@rev _)) in R. now rewrite rev_involutive in R.
Qed.

Lemma strip_idempotent (s : str) : strip (strip s) = strip s.
Proof.
  destruct (strip_spec s) as (l & r & _ & _ & _ & Hh & Ht).
  now apply strip_fixed.
Qed.

(** ** The extracted response *)

Lemma end_marker_holds_cut : im_end = lit "<|im_end|" ++ lit ">".
Proof. reflexivity. Qed.

(** The two cuts of [extract_response], before the trim. *)
Lemma extract_cuts (raw : str) :
  exists cut l r,
    extract_response raw = strip cut
    /\ cut = l ++ strip cut ++ r
    /\ ~ occurs im_start_assistant cut
    /\ ~ occurs im_end cut.
Proof.
  unfold extract_response.
  set (x1 := if contains im_start_assistant raw
             then last_piece (split im_start_assistant raw) else raw).
  assert (N1 : ~ occurs im_start_assistant x1).
  { unfold x1. destruct (contains im_start_assistant raw) eqn:C.
    - apply last_piece_no_sep, markers_nonempty.
    - now apply contains_false_iff. }
  set (x2 := if contains im_end x1
             then first_piece (split (lit "<|im_end|") x1) else x1).
  assert (P : (exists rest, x1 = x2 ++ rest) /\ ~ occurs im_end x2).
  { unfold x2. destruct (contains im_end x1) eqn:C.
    - apply contains_iff in C as (pre & post & E).
      destruct (find (lit "<|im_end|") x1) as [i|] eqn:F.
      + rewrite (first_piece_split _ _ _ (proj2 markers_nonempty) F). split.
        * exists (skipn i x1). symmetry. apply firstn_skipn.
        * intros (p & q & O).
          apply (before_find_no_sep _ _ _ (proj2 markers_nonempty) F).
          exists p, (lit ">" ++ q). unfold occurs_at in *.
          now rewrite O, end_marker_holds_cut, <- !app_assoc.
      + exfalso. apply (find_None _ _ F). exists pre, (lit ">" ++ post).
        unfold occurs_at in *. now rewrite E, end_marker_holds_cut, <- !app_assoc.
    - split; [exists []; now rewrite app_nil_r | now apply contains_false_iff]. }
  destruct P as [[rest E] N2].
  destruct (strip_spec x2) as (l & r & S & _).
  exists x2, l, r. repeat split; auto.
  intros O. apply N1. rewrite E.
  apply (occurs_infix _ [] x2 rest) in O. exact O.
Qed.

(** X1: whatever the decoded text, the extracted response holds neither the
    assistant-start marker nor the end marker [<|im_end|>], and it neither
    begins nor ends with whitespace. *)
Theorem extract_response_clean (raw : str) :
  ~ occurs im_start_assistant (extract_response raw)
  /\ ~ occurs im_end (extract_response raw)
  /\ (forall c t, extract_response raw = c :: t -> isspace c = false)
  /\ (forall t c, extract_response raw = t ++ [c] -> isspace c = false).
Proof.
  destruct (extract_cuts raw) as (cut & l & r & E & S & Ns & Ne).
  destruct (strip_spec cut) as (_ & _ & _ & _ & _ & Hh & Ht).
  rewrite E. repeat split; auto.
  - intros O. apply Ns. rewrite S. now apply occurs_infix.
  - intros O. apply Ne. rewrite S. now apply occurs_infix.
Qed.

(** X2: extracting twice changes nothing: the extractor returns its own
    results as they are. *)
Theorem extract_response_idempotent (raw : str) :
  extract_response (extract_response raw) = extract_response raw.
Proof.
  destruct (extract_cuts raw) as (cut & l & r & E & S & Ns & Ne).
  assert (Ns' : contains im_start_assistant (extract_response raw) = false).
  { apply contains_false_iff. intros O. apply Ns. rewrite S, <- E.
    now apply occurs_infix. }
  assert (Ne' : contains im_end (extract_response raw) = false).
  { apply contains_false_iff. intros O. apply Ne. rewrite S, <- E.
    now apply occurs_infix. }
  unfold extract_response at 1. rewrite Ns', Ne'.
  rewrite E. apply strip_idempotent.
Qed.

Lemma extract_after_last_marker_witness :
  extract_response (lit "user" ++ im_start_assistant ++ lit " Hi there ")
  = strip (lit " Hi there ").
Proof.
  apply (extract_after_last_marker _ (lit "user") (lit " Hi there ")).
  - reflexivity.
  - apply contains_false_iff. vm_compute. reflexivity.
  - apply contains_false_iff. vm_compute. reflexivity.
Defined.

Lemma extract_answer_before_end_marker_witness :
  extract_response
    (lit "user" ++ im_start_assistant ++ lit " Hi there" ++ im_end ++ lit " more")
  = strip (lit " Hi there").
Proof.
  apply (extract_answer_before_end_marker _ (lit "user") (lit " Hi there")
           (lit " more")).
  - reflexivity.
  - apply contains_false_iff. vm_compute. reflexivity.
  - apply contains_false_iff. vm_compute. reflexivity.
Defined.

(** ** The prompt over several turns *)

Lemma render_history_app (h1 h2 : list Turn) :
  render_history (h1 ++ h2) = render_history h1 ++ render_history h2.
Proof.
  induction h1 as [|[[|] c] h1 IH]; cbn [app render_history role content];
    [reflexivity | |]; now rewrite IH, <- !app_assoc.
Qed.

(** X5: the prompt of the next turn is the prompt of this turn, continued:
    after an exchange is stored, the next prompt is the previous one followed
    by the stored answer, its end marker, the new user turn and the open
    assistant-start marker. *)
Theorem next_prompt_continues_previous
    (h : list Turn) (user_input response next_input : str) :
  full_prompt (h ++ [ {| role := user; content := user_input |} ]
                 ++ [ {| role := assistant; content := response |} ])
              next_input
  = full_prompt h user_input
    ++ response ++ im_end ++ nl
    ++ im_start_user ++ next_input ++ im_end ++ nl ++ im_start_assistant.
Proof.
  unfold full_prompt. rewrite !render_history_app.
  cbn [render_history role content]. rewrite !app_nil_r, <- !app_assoc.
  reflexivity.
Qed.

(** X6: contents are rendered as they are, markers included: a single prompt
    that spells out the end of its own turn and further turns is formatted
    by [generate_response] into exactly the prompt of that conversation. *)
Theorem prompt_can_spell_a_conversation
    (first : str) (h : list Turn) (user_input : str) :
  formatted_prompt
    (first ++ im_end ++ nl ++ render_history h ++ im_start_user ++ user_input)
  = full_prompt ({| role := user; content := first |} :: h) user_input.
Proof.
  unfold formatted_prompt, full_prompt. cbn [render_history role content].
  now rewrite <- !app_assoc.
Qed.

(** ** The passes of the loop *)

Lemma submitted_app (a b : trace) :
  submitted (a ++ b) = submitted a ++ submitted b.
Proof.
  induction a as [|[] a IH]; cbn [app submitted]; rewrite ?IH; reflexivity.
Qed.

Lemma chat_loop_one_pass_trace (stdin : result str) (provider : Provider)
    (h : list Turn) (tr : trace) :
  snd (chat_loop [(stdin, provider)] h tr) = snd (loop_body stdin provider h tr).
Proof.
  rewrite chat_loop_one_pass.
  destruct (loop_body stdin provider h tr) as [[[[|] h']|e] t]; reflexivity.
Qed.

(** X7: the quit command, in any letter case and with any surrounding
    whitespace, ends the loop at once: the history is kept, the provider is
    not called, and what the console would still offer is not read. *)
Theorem quit_leaves_loop
    (h : list Turn) (line : str) (provider : Provider)
    (rest : list (result str * Provider)) (tr : trace) :
  lower (strip line) = lit "quit" ->
  chat_loop ((Ok line, provider) :: rest) h tr
  = (Ok (Terminated, h),
     tr ++ [ Input (nl ++ [128100%N] ++ lit " You: ");
             Print ([128075%N] ++ lit " Goodbye!") ]).
Proof.
  intros L. cbn [chat_loop]. run. rewrite L.
  change (eqb (lit "quit") (lit "quit")) with true.
  run. rewrite <- !app_assoc. reflexivity.
Qed.

Lemma quit_leaves_loop_witness :
  chat_loop [(Ok (lit " Quit "), hello_provider); (Ok hi, hello_provider)]
    [ {| role := user; content := hi |};
      {| role := assistant; content := hello |} ] []
  = (Ok (Terminated, [ {| role := user; content := hi |};
                       {| role := assistant; content := hello |} ]),
     [] ++ [ Input (nl ++ [128100%N] ++ lit " You: ");
             Print ([128075%N] ++ lit " Goodbye!") ]).
Proof.
  apply (quit_leaves_loop _ (lit " Quit ") hello_provider
           [(Ok hi, hello_provider)] []).
  vm_compute. reflexivity.
Defined.

(** X8: a line of whitespace only (the empty line included) is a no-op: the
    history is kept, nothing is printed, the provider is not called, and the
    loop awaits the next line. *)
Theorem blank_line_is_ignored
    (h : list Turn) (line : str) (provider : Provider) (tr : trace) :
  forallb isspace line = true ->
  chat_loop [(Ok line, provider)] h tr
  = (Ok (AwaitingInput, h),
     tr ++ [ Input (nl ++ [128100%N] ++ lit " You: ") ]).
Proof.
  intros W. rewrite chat_loop_one_pass. run. rewrite (strip_whitespace _ W).
  reflexivity.
Qed.

Lemma blank_line_is_ignored_witness :
  chat_loop [(Ok (lit "   "), hello_provider)]
    [ {| role := user; content := hi |};
      {| role := assistant; content := hello |} ] []
  = (Ok (AwaitingInput, [ {| role := user; content := hi |};
                          {| role := assistant; content := hello |} ]),
     [] ++ [ Input (nl ++ [128100%N] ++ lit " You: ") ]).
Proof.
  apply (blank_line_is_ignored _ (lit "   ") hello_provider []).
  reflexivity.
Defined.

(** X9: the whitespace around a line never matters: a pass on a line and a
    pass on the trimmed line are the same pass. *)
Theorem surrounding_whitespace_is_ignored
    (h : list Turn) (line : str) (provider : Provider) (tr : trace) :
  loop_body (Ok line) provider h tr = loop_body (Ok (strip line)) provider h tr.
Proof.
  run. rewrite strip_idempotent. reflexivity.
Qed.

(** X10: an interrupt at the prompt ends the loop with the farewell; the
    history is kept and the rest of the console is not read. *)
Theorem interrupt_at_prompt_leaves_loop
    (h : list Turn) (provider : Provider)
    (rest : list (result str * Provider)) (tr : trace) :
  chat_loop ((Raise KeyboardInterrupt, provider) :: rest) h tr
  = (Ok (Terminated, h),
     tr ++ [ Input (nl ++ [128100%N] ++ lit " You: ");
             Print (nl ++ nl ++ [128075%N] ++ lit " Goodbye!") ]).
Proof.
  cbn [chat_loop]. run. rewrite <- !app_assoc. reflexivity.
Qed.

(** X11: an interrupt while the provider is generating is not reported as a
    failed generation: it ends the loop with the farewell, and the turn that
    was being answered is not stored. *)
Theorem interrupt_while_generating_leaves_loop
    (h : list Turn) (line : str) (provider : Provider)
    (rest : list (result str * Provider)) (tr : trace) :
  triggers_generation line ->
  provider (formatted_prompt (full_prompt h (strip line)))
    = Raise KeyboardInterrupt ->
  chat_loop ((Ok line, provider) :: rest) h tr
  = (Ok (Terminated, h),
     tr ++ [ Input (nl ++ [128100%N] ++ lit " You: ");
             Print (nl ++ [129302%N] ++ lit " Assistant is thinking...");
             Generate (formatted_prompt (full_prompt h (strip line))) 200;
             Print (nl ++ nl ++ [128075%N] ++ lit " Goodbye!") ]).
Proof.
  intros T F. destruct (triggers_generation_tests line T) as (Q & C & E).
  cbn [chat_loop]. run. rewrite Q, C, E. run. rewrite F. run.
  rewrite <- !app_assoc. reflexivity.
Qed.

Lemma interrupt_while_generating_leaves_loop_witness :
  chat_loop [(Ok hi, fun _ => Raise KeyboardInterrupt); (Ok hi, hello_provider)]
    [] []
  = (Ok (Terminated, []),
     [] ++ [ Input (nl ++ [128100%N] ++ lit " You: ");
             Print (nl ++ [129302%N] ++ lit " Assistant is thinking...");
             Generate (formatted_prompt (full_prompt [] (strip hi))) 200;
             Print (nl ++ nl ++ [128075%N] ++ lit " Goodbye!") ]).
Proof.
  apply (interrupt_while_generating_leaves_loop [] hi
           (fun _ => Raise KeyboardInterrupt) [(Ok hi, hello_provider)] []).
  - repeat split; vm_compute; discriminate.
  - reflexivity.
Defined.

(** X12: an exception of [input] other than an interrupt, such as the end of
    the console's input, does not end the loop: after any number of failed
    reads the loop still awaits input with its history unchanged, having
    printed one error line per read. *)
Theorem failed_reads_never_leave_loop
    (h : list Turn) (msg : str) (provider : Provider) (n : nat) (tr : trace) :
  chat_loop (repeat (Raise (Exception msg), provider) n) h tr
  = (Ok (AwaitingInput, h), tr ++ concat (repeat (failed_read msg) n)).
Proof.
  revert tr; induction n as [|n IH]; intros tr.
  - cbn. now rewrite app_nil_r.
  - cbn [repeat chat_loop concat]. run. rewrite IH.
    unfold failed_read at 2. rewrite <- !app_assoc. reflexivity.
Qed.

(** X13: a successful generation stores one exchange: the trimmed line as
    the user turn and the extracted response as the assistant turn, in that
    order, after the turns already there. *)
Theorem successful_generation_appends_exchange
    (h : list Turn) (line : str) (provider : Provider) (raw : str) (tr : trace) :
  triggers_generation line ->
  provider (formatted_prompt (full_prompt h (strip line))) = Ok raw ->
  extract_response raw <> [] ->
  chat_loop [(Ok line, provider)] h tr
  = (Ok (AwaitingInput,
         h ++ [ {| role := user; content := strip line |};
                {| role := assistant; content := extract_response raw |} ]),
     tr ++ [ Input (nl ++ [128100%N] ++ lit " You: ");
             Print (nl ++ [129302%N] ++ lit " Assistant is thinking...");
             Generate (formatted_prompt (full_prompt h (strip line))) 200;
             Print ([129302%N] ++ lit " Assistant: " ++ extract_response raw) ]).
Proof.
  intros T P N. destruct (triggers_generation_tests line T) as (Q & C & E).
  assert (R : truthy (extract_response raw) = true)
    by (destruct (extract_response raw); [congruence | reflexivity]).
  rewrite chat_loop_one_pass. run. rewrite Q, C, E. run. rewrite P. run.
  rewrite R. run. rewrite <- !app_assoc. reflexivity.
Qed.

Lemma successful_generation_appends_exchange_witness :
  chat_loop [(Ok (lit " hi "), hello_provider)] [] []
  = (Ok (AwaitingInput,
         [] ++ [ {| role := user; content := strip (lit " hi ") |};
                 {| role := assistant;
                    content := extract_response
                                 (im_start_assistant ++ hello ++ im_end) |} ]),
     [] ++ [ Input (nl ++ [128100%N] ++ lit " You: ");
             Print (nl ++ [129302%N] ++ lit " Assistant is thinking...");
             Generate (formatted_prompt (full_prompt [] (strip (lit " hi ")))) 200;
             Print ([129302%N] ++ lit " Assistant: "
                    ++ extract_response (im_start_assistant ++ hello ++ im_end)) ]).
Proof.
  apply (successful_generation_appends_exchange [] (lit " hi ") hello_provider
           (im_start_assistant ++ hello ++ im_end) []).
  - repeat split; vm_compute; discriminate.
  - reflexivity.
  - vm_compute. discriminate.
Defined.

(** X14: an answer that is empty once extracted counts as a failure although
    the provider raised nothing: the failure line is printed and the history
    is kept, so no turn with empty content is stored. *)
Theorem empty_answer_counts_as_failure
    (h : list Turn) (line : str) (provider : Provider) (raw : str) (tr : trace) :
  triggers_generation line ->
  provider (formatted_prompt (full_prompt h (strip line))) = Ok raw ->
  extract_response raw = [] ->
  chat_loop [(Ok line, provider)] h tr
  = (Ok (AwaitingInput, h),
     tr ++ [ Input (nl ++ [128100%N] ++ lit " You: ");
             Print (nl ++ [129302%N] ++ lit " Assistant is thinking...");
             Generate (formatted_prompt (full_prompt h (strip line))) 200;
             Print ([10060%N] ++ lit " Failed to generate response") ]).
Proof.
  intros T P N. destruct (triggers_generation_tests line T) as (Q & C & E).
  rewrite chat_loop_one_pass. run. rewrite Q, C, E. run. rewrite P. run.
  rewrite N. cbn [truthy]. run. rewrite <- !app_assoc. reflexivity.
Qed.

Lemma empty_answer_counts_as_failure_witness :
  chat_loop [(Ok hi, fun _ => Ok (im_start_assistant ++ lit "  " ++ im_end))]
    [] []
  = (Ok (AwaitingInput, []),
     [] ++ [ Input (nl ++ [128100%N] ++ lit " You: ");
             Print (nl ++ [129302%N] ++ lit " Assistant is thinking...");
             Generate (formatted_prompt (full_prompt [] (strip hi))) 200;
             Print ([10060%N] ++ lit " Failed to generate response") ]).
Proof.
  apply (empty_answer_counts_as_failure [] hi
           (fun _ => Ok (im_start_assistant ++ lit "  " ++ im_end))
           (im_start_assistant ++ lit "  " ++ im_end) []).
  - repeat split; vm_compute; discriminate.
  - reflexivity.
  - vm_compute. reflexivity.
Defined.

Lemma exchanges_app (h1 h2 : list Turn) :
  exchanges h1 -> exchanges h2 -> exchanges (h1 ++ h2).
Proof.
  intros X1 X2. induction X1 as [|u a rest Hu Su Ha Ns Ne X1 IH]; [exact X2|].
  cbn [app]. constructor; auto.
Qed.

(** One pass keeps the history a list of exchanges. *)
Lemma loop_body_exchanges (stdin : result str) (provider : Provider)
    (h : list Turn) (tr : trace) :
  exchanges h ->
  exists c h' tr',
    loop_body stdin provider h tr = (Ok (c, h'), tr') /\ exchanges h'.
Proof.
  intros X.
  destruct stdin as [line | [msg|]]; run;
    [| do 3 eexists; split; [reflexivity | exact X] ..].
  destruct (eqb (lower (strip line)) (lit "quit")); run;
    [do 3 eexists; split; [reflexivity | exact X] |].
  destruct (eqb (lower (strip line)) (lit "clear")); run;
    [do 3 eexists; split; [reflexivity | constructor] |].
  destruct (truthy (strip line)) eqn:E; run;
    [| do 3 eexists; split; [reflexivity | exact X]].
  destruct (provider _) as [raw | [msg|]]; run;
    [| do 3 eexists; split; [reflexivity | exact X] ..].
  destruct (truthy (extract_response raw)) eqn:R; run;
    do 3 eexists; (split; [reflexivity |]); [| exact X].
  apply exchanges_app; [exact X |].
  destruct (extract_cuts raw) as (cut & l & r & Ec & S & Ns & Ne).
  cbn [app]. constructor; try constructor.
  - intros Z. rewrite Z in E. discriminate.
  - apply strip_idempotent.
  - intros Z. rewrite Z in R. discriminate.
  - intros O. apply Ns. rewrite S, <- Ec. now apply occurs_infix.
  - intros O. apply Ne. rewrite S, <- Ec. now apply occurs_infix.
Qed.

Lemma awaiting_histories_exchanges (script : list (result str * Provider))
    (h : list Turn) (tr : trace) :
  exchanges h -> Forall exchanges (awaiting_histories script h tr).
Proof.
  revert h tr; induction script as [|[stdin provider] script IH]; intros h tr X;
    cbn [awaiting_histories]; constructor; auto.
  destruct (loop_body_exchanges stdin provider h tr X) as (c & h' & t & -> & X').
  destruct c; [apply IH; exact X' | constructor].
Qed.

(** X15: whenever the interactive loop awaits input, its history is a list
    of exchanges: user and assistant turns alternate, beginning with a user
    turn; every user content is a non-empty trimmed line; every assistant
    content is non-empty and holds neither the assistant-start marker nor
    the end marker.  The history with which a run ends is of that form
    too. *)
Theorem history_is_exchanges
    (script : list (result str * Provider)) (tr : trace) :
  Forall exchanges (awaiting_histories script [] tr)
  /\ exists st h tr',
       interactive_chat script tr = (Ok (st, h), tr') /\ exchanges h.
Proof.
  split; [apply awaiting_histories_exchanges; constructor |].
  unfold interactive_chat. unfold bind at 1 2 3. unfold print, interact.
  generalize (((tr ++ [Print (nl ++ [129302%N] ++ lit " Interactive Chat Mode")])
                 ++ [Print (lit "Type 'quit' to exit, 'clear' to start a new conversation")])
                ++ [Print (repeat 45%N 50)]).
  assert (G : forall h t, exchanges h ->
                exists st h' t', chat_loop script h t = (Ok (st, h'), t')
                                 /\ exchanges h');
    [| intros t; apply G; constructor].
  induction script as [|[stdin provider] script IH]; intros h t X.
  - do 3 eexists. split; [reflexivity | exact X].
  - cbn [chat_loop]. unfold bind.
    destruct (loop_body_exchanges stdin provider h t X) as (c & h' & t' & -> & X').
    destruct c; [apply IH; exact X' |].
    do 3 eexists. split; [reflexivity | exact X'].
Qed.

(** What a pass on a line that triggers generation hands to the provider. *)
Lemma pass_submits (h : list Turn) (line : str) (provider : Provider)
    (tr : trace) :
  triggers_generation line ->
  exists tr',
    snd (loop_body (Ok line) provider h tr) = tr ++ tr'
    /\ submitted tr' = [formatted_prompt (full_prompt h (strip line))].
Proof.
  intros T. destruct (triggers_generation_tests line T) as (Q & C & E).
  run. rewrite Q, C, E. run.
  destruct (provider _) as [raw | [msg|]]; run;
    [destruct (truthy (extract_response raw)); run | |];
    cbn [snd]; rewrite <- !app_assoc; eexists; (split; [reflexivity |]);
    reflexivity.
Qed.

(** X16: the clear command forgets: the prompt submitted for the line that
    follows a clear is the prompt of a fresh conversation, whatever the
    history was before the clear. *)
Theorem clear_forgets_history
    (h : list Turn) (clear_line line : str) (p1 p2 : Provider) (tr : trace) :
  lower (strip clear_line) = lit "clear" ->
  triggers_generation line ->
  exists tr',
    snd (chat_loop [(Ok clear_line, p1); (Ok line, p2)] h tr) = tr ++ tr'
    /\ submitted tr' = [formatted_prompt (full_prompt [] (strip line))].
Proof.
  intros L T.
  assert (S : chat_loop [(Ok clear_line, p1); (Ok line, p2)] h tr
              = chat_loop [(Ok line, p2)] []
                  (tr ++ [ Input (nl ++ [128100%N] ++ lit " You: ");
                           Print ([129529%N] ++ lit " Conversation cleared!") ])).
  { cbn [chat_loop]. unfold bind at 1. run. rewrite L.
    change (eqb (lit "clear") (lit "quit")) with false.
    change (eqb (lit "clear") (lit "clear")) with true.
    run. rewrite <- !app_assoc. reflexivity. }
  rewrite S, chat_loop_one_pass_trace.
  destruct (pass_submits [] line p2
              (tr ++ [ Input (nl ++ [128100%N] ++ lit " You: ");
                       Print ([129529%N] ++ lit " Conversation cleared!") ]) T)
    as (t' & -> & Sub).
  eexists. rewrite <- app_assoc. split; [reflexivity |].
  rewrite submitted_app, Sub. reflexivity.
Qed.

Lemma clear_forgets_history_witness :
  exists tr',
    snd (chat_loop [(Ok (lit "clear"), hello_provider); (Ok hi, hello_provider)]
           [ {| role := user; content := hello |};
             {| role := assistant; content := hi |} ] []) = [] ++ tr'
    /\ submitted tr' = [formatted_prompt (full_prompt [] (strip hi))].
Proof.
  apply (clear_forgets_history _ (lit "clear") hi hello_provider hello_provider []).
  - vm_compute. reflexivity.
  - repeat split; vm_compute; discriminate.
Defined.

(** ** generate_response as a whole *)

(** X17: [generate_response] hands the provider exactly one prompt, the
    given one wrapped by line 52.  It never raises an [Exception]: it
    returns [None] exactly when the provider raised one, returns the
    extracted answer when the provider returned a text, and lets an
    interrupt through. *)
Theorem generate_response_outcome
    (provider : Provider) (prompt : str) (max_length : N) (tr : trace) :
  (exists tr',
     snd (generate_response provider prompt max_length tr) = tr ++ tr'
     /\ submitted tr' = [formatted_prompt prompt])
  /\ (forall msg,
        fst (generate_response provider prompt max_length tr)
        <> Raise (Exception msg))
  /\ (fst (generate_response provider prompt max_length tr) = Ok None
      <-> exists msg, provider (formatted_prompt prompt) = Raise (Exception msg))
  /\ (forall raw,
        provider (formatted_prompt prompt) = Ok raw ->
        fst (generate_response provider prompt max_length tr)
        = Ok (Some (extract_response raw)))
  /\ (provider (formatted_prompt prompt) = Raise KeyboardInterrupt ->
      fst (generate_response provider prompt max_length tr)
      = Raise KeyboardInterrupt).
Proof.
  run. destruct (provider (formatted_prompt prompt)) as [raw | [msg|]]; run;
    (split; [eexists; rewrite <- ?app_assoc; split; reflexivity |]);
    (split; [intros m; discriminate |]);
    (split; [split; [try discriminate | intros [m Hm]; try discriminate] |]);
    try (split; [intros r Hr; try discriminate | intros Hk; try discriminate]).
  - now injection Hr as ->.
  - now exists msg.
  - reflexivity.
  - reflexivity.
Qed.

(** ** load_model and main, beyond a failed load *)

Lemma inputs_app (a b : trace) : inputs (a ++ b) = inputs a ++ inputs b.
Proof.
  induction a as [|[] a IH]; cbn [app inputs]; rewrite ?IH; reflexivity.
Qed.

(** [load_model] on the way to a successful return. *)
Lemma load_model_success (env : Env) (args : Args)
    (tokenizer : Tokenizer) (model : Model) (tr : trace) :
  loads_succeed env args tokenizer model ->
  load_model env (arg_model args) (arg_device args) tr
  = (Ok (Some model, Some tokenizer),
     tr ++ [ Print (lit "Loading model: " ++ arg_model args);
             Print (lit "This may take a few minutes on first run...");
             Print (lit "Using device: "
                    ++ resolve_device env (arg_device args));
             TokenizerFromPretrained (arg_model args);
             ModelFromPretrained (arg_model args)
               (dtype_for (resolve_device env (arg_device args)))
               (resolve_device env (arg_device args));
             Print ([9989%N] ++ lit " Model loaded successfully!") ]).
Proof.
  intros [T Mo]. cbv zeta in T, Mo. run_main. rewrite T, Mo.
  rewrite <- !app_assoc. reflexivity.
Qed.



(** X19: when the tokenizer cannot be loaded, for whatever reason, the model
    load is not attempted. *)
Theorem tokenizer_failure_skips_model_load
    (env : Env) (model_name device : str) (e : exn) (tr : trace) :
  hub_tokenizer env model_name = Raise e ->
  exists tr',
    snd (load_model env model_name device tr) = tr ++ tr'
    /\ tokenizer_loads tr' = [model_name]
    /\ model_loads tr' = [].
Proof.
  intros F. run_main. rewrite F. destruct e as [msg|]; cbv beta iota;
    rewrite <- !app_assoc; eexists; (split; [reflexivity |]);
    split; reflexivity.
Qed.

Lemma tokenizer_failure_skips_model_load_witness :
  exists tr',
    snd (load_model offline_env default_model (lit "auto") []) = [] ++ tr'
    /\ tokenizer_loads tr' = [default_model]
    /\ model_loads tr' = [].
Proof.
  apply (tokenizer_failure_skips_model_load offline_env default_model
           (lit "auto") (Exception (lit "Connection error")) []).
  reflexivity.
Defined.

(** X20: with [--device auto] the model is requested once, in half precision
    on [cuda] when CUDA is available and in single precision on [cpu] when
    it is not. *)
Theorem auto_device_request
    (env : Env) (model_name : str) (tokenizer : Tokenizer) (tr : trace) :
  hub_tokenizer env model_name = Ok tokenizer ->
  exists tr',
    snd (load_model env model_name (lit "auto") tr) = tr ++ tr'
    /\ model_requests tr'
       = [ if cuda_is_available env
           then (model_name, float16, lit "cuda")
           else (model_name, float32, lit "cpu") ].
Proof.
  intros T. run_main. rewrite T.
  change (resolve_device env (lit "auto"))
    with (if cuda_is_available env then lit "cuda" else lit "cpu").
  destruct (cuda_is_available env);
    [change (dtype_for (lit "cuda")) with float16
    | change (dtype_for (lit "cpu")) with float32];
    destruct (hub_model env model_name _ _) as [model | [msg|]];
    cbv beta iota; rewrite <- !app_assoc; eexists;
    (split; [reflexivity |]); reflexivity.
Qed.

Lemma auto_device_request_witness :
  exists tr',
    snd (load_model online_env default_model (lit "auto") []) = [] ++ tr'
    /\ model_requests tr'
       = [ if cuda_is_available online_env
           then (default_model, float16, lit "cuda")
           else (default_model, float32, lit "cpu") ].
Proof.
  apply (auto_device_request online_env default_model
           (tokenizer_handle default_model) []).
  reflexivity.
Defined.

(** X21: an interrupt during either load is not reported as a load failure:
    it leaves [main] as an interrupt, no hint is printed, and no generation
    mode is entered. *)
Theorem interrupted_load_propagates
    (args : Args) (env : Env) (tr : trace) :
  hub_tokenizer env (arg_model args) = Raise KeyboardInterrupt
  \/ (exists tokenizer,
        hub_tokenizer env (arg_model args) = Ok tokenizer
        /\ hub_model env (arg_model args)
             (dtype_for (resolve_device env (arg_device args)))
             (resolve_device env (arg_device args)) = Raise KeyboardInterrupt) ->
  exists tr',
    main args env tr = (Raise KeyboardInterrupt, tr ++ tr')
    /\ ~ In (Print (nl ++ [128161%N] ++ lit " Tips:")) tr'
    /\ submitted tr' = []
    /\ inputs tr' = [].
Proof.
  intros [F | (tokenizer & T & F)]; run_main; [rewrite F | rewrite T, F];
    rewrite <- !app_assoc; eexists; (split; [reflexivity |]);
    (split; [| split; reflexivity]);
    intros I; cbn in I;
    repeat (destruct I as [I | I]; [discriminate I |]); exact I.
Qed.

Lemma interrupted_load_propagates_witness :
  exists tr',
    main interactive_args interrupted_env [] = (Raise KeyboardInterrupt, [] ++ tr')
    /\ ~ In (Print (nl ++ [128161%N] ++ lit " Tips:")) tr'
    /\ submitted tr' = []
    /\ inputs tr' = [].
Proof.
  apply (interrupted_load_propagates interactive_args interrupted_env []).
  left. reflexivity.
Defined.

Lemma main_after_load (args : Args) (env : Env)
    (tokenizer : Tokenizer) (model : Model) (tr : trace) :
  loads_succeed env args tokenizer model ->
  exists loading,
    load_model env (arg_model args) (arg_device args) tr
    = (Ok (Some model, Some tokenizer), tr ++ loading)
    /\ tokenizer_loads loading = [arg_model args]
    /\ model_loads loading = [arg_model args]
    /\ submitted loading = []
    /\ inputs loading = []
    /\ ~ In (Print (nl ++ [129302%N] ++ lit " Interactive Chat Mode")) loading.
Proof.
  intros L. rewrite (load_model_success env args tokenizer model tr L).
  eexists. split; [reflexivity |]. repeat split.
  intros I; cbn in I.
  repeat (destruct I as [I | I]; [discriminate I |]); exact I.
Qed.

(** X22: single-prompt mode.  Once both loads have succeeded, a non-empty
    [--prompt] wins over [--interactive]: the prompt is handed to the
    provider once, wrapped once, no line is read from the console and the
    interactive banner is not printed.  The program then ends normally
    whether the generation succeeded or failed; only an interrupt during
    the generation leaves [main] as an interrupt. *)
Theorem single_prompt_mode
    (args : Args) (env : Env) (tokenizer : Tokenizer) (model : Model)
    (prompt : str) (tr : trace) :
  loads_succeed env args tokenizer model ->
  arg_prompt args = Some prompt ->
  prompt <> [] ->
  exists tr',
    main args env tr
    = (match single_shot env (formatted_prompt prompt) with
       | Raise KeyboardInterrupt => Raise KeyboardInterrupt
       | _ => Ok tt
       end, tr ++ tr')
    /\ submitted tr' = [formatted_prompt prompt]
    /\ inputs tr' = []
    /\ ~ In (Print (nl ++ [129302%N] ++ lit " Interactive Chat Mode")) tr'.
Proof.
  intros L P N.
  destruct (main_after_load args env tokenizer model tr L)
    as (loading & E & _ & _ & Sl & Il & Bl).
  unfold main. unfold bind at 1. rewrite E, P.
  destruct prompt as [|c prompt]; [congruence |]. cbn [given truthy].
  set (p := c :: prompt). run.
  destruct (single_shot env (formatted_prompt p)) as [raw | [msg|]]; run;
    [destruct (truthy (extract_response raw)); run | |];
    rewrite <- !app_assoc; eexists; (split; [reflexivity |]);
    rewrite !submitted_app, !inputs_app, Sl, Il;
    (split; [reflexivity |]); (split; [reflexivity |]);
    intros I; apply in_app_or in I as [I | I]; try (now apply Bl);
    cbn in I;
    repeat (destruct I as [I | I]; [discriminate I |]); exact I.
Qed.

Lemma single_prompt_mode_witness :
  exists tr',
    main prompt_args online_env []
    = (match single_shot online_env (formatted_prompt hi) with
       | Raise KeyboardInterrupt => Raise KeyboardInterrupt
       | _ => Ok tt
       end, [] ++ tr')
    /\ submitted tr' = [formatted_prompt hi]
    /\ inputs tr' = []
    /\ ~ In (Print (nl ++ [129302%N] ++ lit " Interactive Chat Mode")) tr'.
Proof.
  apply (single_prompt_mode prompt_args online_env
           (tokenizer_handle default_model)
           (model_handle default_model float16 (lit "cuda")) hi []).
  - split; reflexivity.
  - reflexivity.
  - discriminate.
Defined.

Lemma no_prompt_given (args : Args) :
  no_prompt args -> given (arg_prompt args) = None.
Proof. intros [-> | ->]; reflexivity. Qed.

(** X23: without a usable prompt and without [--interactive] the program
    prints its usage, but only after it has loaded the tokenizer and the
    model; an empty [--prompt] counts as none.  Nothing is handed to the
    provider and nothing is read from the console. *)
Theorem usage_is_printed_after_loading
    (args : Args) (env : Env) (tokenizer : Tokenizer) (model : Model)
    (tr : trace) :
  loads_succeed env args tokenizer model ->
  no_prompt args ->
  arg_interactive args = false ->
  exists loading usage,
    main args env tr = (Ok tt, tr ++ loading ++ usage)
    /\ tokenizer_loads loading = [arg_model args]
    /\ model_loads loading = [arg_model args]
    /\ usage
       = [ Print (nl ++ [128214%N] ++ lit " Usage Examples:");
           Print (lit "1. Single prompt:");
           Print (lit "   python " ++ script_path env
                  ++ lit " --prompt 'What is artificial intelligence?'");
           Print (nl ++ lit "2. Interactive chat:");
           Print (lit "   python " ++ script_path env ++ lit " --interactive");
           Print (nl ++ lit "3. Use different model:");
           Print (lit "   python " ++ script_path env
                  ++ lit " --model 'other/model/path' --interactive") ]
    /\ submitted (loading ++ usage) = []
    /\ inputs (loading ++ usage) = [].
Proof.
  intros L P I.
  destruct (main_after_load args env tokenizer model tr L)
    as (loading & E & Tl & Ml & Sl & Il & _).
  unfold main. unfold bind at 1. rewrite E, (no_prompt_given args P), I.
  run. rewrite <- !app_assoc. exists loading. eexists.
  split; [reflexivity |]. rewrite submitted_app, inputs_app, Sl, Il.
  repeat split; auto.
Qed.

Lemma usage_is_printed_after_loading_witness :
  exists loading usage,
    main bare_args online_env [] = (Ok tt, [] ++ loading ++ usage)
    /\ tokenizer_loads loading = [arg_model bare_args]
    /\ model_loads loading = [arg_model bare_args]
    /\ usage
       = [ Print (nl ++ [128214%N] ++ lit " Usage Examples:");
           Print (lit "1. Single prompt:");
           Print (lit "   python " ++ script_path online_env
                  ++ lit " --prompt 'What is artificial intelligence?'");
           Print (nl ++ lit "2. Interactive chat:");
           Print (lit "   python " ++ script_path online_env
                  ++ lit " --interactive");
           Print (nl ++ lit "3. Use different model:");
           Print (lit "   python " ++ script_path online_env
                  ++ lit " --model 'other/model/path' --interactive") ]
    /\ submitted (loading ++ usage) = []
    /\ inputs (loading ++ usage) = [].
Proof.
  apply (usage_is_printed_after_loading bare_args online_env
           (tokenizer_handle default_model)
           (model_handle default_model float32 (lit "cpu")) []).
  - split; reflexivity.
  - right. reflexivity.
  - reflexivity.
Defined.


